(** * Waveform audio visualiser: ring buffer and audio helpers

    A shallow embedding of [src/source.hpp]: the [circlebuf] byte ring
    buffer (the [extern "C"] block at the top of the header) and the inline
    helpers of [class WAVSource] ([get_audio_sync], [dbfs], [get_gravity]).

    Conventions.
    - [size_t] and [uint64_t] are integers in [Z] reduced modulo [2^64] after
      every arithmetic operation ([wrap]); [int64_t] is its signed reading.
    - The heap block behind [cb->data] is a [list byte]; a [memcpy], [memset]
      or [memmove] that leaves the block, a failed [assert] and a failed
      allocation all end the run: operations return [option], [None] standing
      for "the process does not continue in a defined state".
    - [float] is IEEE-754 binary32, through the parametric operators of
      [SpecFloat] at precision 24 and maximal exponent 128. *)

From Stdlib Require Import ZArith List Lia Bool.
From Stdlib Require Import Strings.Byte.
From Stdlib Require Import Floats.SpecFloat.
Import ListNotations.
Open Scope Z_scope.

(** ** Machine integers *)

Definition SIZE_MOD : Z := 2 ^ 64.
Definition SIZE_MAX : Z := 2 ^ 64 - 1.
Definition PTRDIFF_MAX : Z := 2 ^ 63 - 1.

(** Unsigned 64-bit wrap-around. *)
Definition wrap (z : Z) : Z := z mod SIZE_MOD.

(** ** Option as the "defined behaviour" monad *)

Definition bind {A B : Type} (m : option A) (k : A -> option B) : option B :=
  match m with
  | Some a => k a
  | None => None
  end.

Notation "x <- m ;; k" := (bind m (fun x => k))
  (at level 61, m at next level, right associativity).

(** ** Heap blocks *)

Definition block := list byte.

Definition len (m : list byte) : Z := Z.of_nat (length m).

(** The byte at offset [i] of a block. *)
Definition load (m : block) (i : Z) : byte := nth (Z.to_nat i) m x00.

(** [n] bytes of [m] from offset [off] (no bounds check). *)
Definition slice (m : block) (off n : Z) : list byte :=
  firstn (Z.to_nat n) (skipn (Z.to_nat off) m).

(** [m] with [bs] written over it from offset [off] (no bounds check). *)
Definition overwrite (m : block) (off : Z) (bs : list byte) : block :=
  firstn (Z.to_nat off) m ++ bs ++ skipn (Z.to_nat (off + len bs)) m.

(** Reading [n] bytes at [m + off]; outside the block the behaviour is
    undefined. *)
Definition memread (m : block) (off n : Z) : option (list byte) :=
  if (0 <=? off) && (0 <=? n) && (off + n <=? len m)
  then Some (slice m off n) else None.

(** Writing [bs] at [m + off]; outside the block the behaviour is
    undefined. *)
Definition memwrite (m : block) (off : Z) (bs : list byte) : option block :=
  if (0 <=? off) && (off + len bs <=? len m)
  then Some (overwrite m off bs) else None.

(** [memcpy (dst + doff, src + soff, n)]: the result is the new [dst]. *)
Definition memcpy (dst : block) (doff : Z) (src : block) (soff n : Z)
  : option block :=
  bs <- memread src soff n ;; memwrite dst doff bs.

(** [memmove (m + doff, m + soff, n)] inside one block. *)
Definition memmove (m : block) (doff soff n : Z) : option block :=
  memcpy m doff m soff n.

(** [memset (m + off, 0, n)]. *)
Definition memset0 (m : block) (off n : Z) : option block :=
  if 0 <=? n then memwrite m off (repeat x00 (Z.to_nat n)) else None.

(** [n] zero bytes. *)
Definition zeros (n : Z) : list byte := repeat x00 (Z.to_nat n).

Module CircleBuf.

Section WithHeap.

(** What a heap byte holds before the program writes it: [brealloc] does not
    initialise the bytes it adds. Everything below is parametric in it. *)
Variable uninit : Z -> byte.

Definition fresh (from n : Z) : list byte :=
  map (fun i => uninit (from + Z.of_nat i)) (seq 0 (Z.to_nat n)).

(** [brealloc] of libobs ([util/bmem.h]): the old bytes are kept, the added
    ones are uninitialised; it does not return when the request cannot be
    served, and no object is larger than [PTRDIFF_MAX] bytes. *)
Definition brealloc (m : block) (n : Z) : option block :=
  if n <=? PTRDIFF_MAX
  then Some (firstn (Z.to_nat n) m ++ fresh (len m) (n - len m))
  else None.

(** [struct circlebuf]; [data] is the block the pointer refers to ([[]] for
    [NULL]). *)
Record circlebuf : Type := mkcb {
  data : block;
  size : Z;
  start_pos : Z;
  end_pos : Z;
  capacity : Z
}.

Definition set_data (cb : circlebuf) (d : block) : circlebuf :=
  mkcb d (size cb) (start_pos cb) (end_pos cb) (capacity cb).
Definition set_size (cb : circlebuf) (s : Z) : circlebuf :=
  mkcb (data cb) s (start_pos cb) (end_pos cb) (capacity cb).
Definition set_start_pos (cb : circlebuf) (p : Z) : circlebuf :=
  mkcb (data cb) (size cb) p (end_pos cb) (capacity cb).
Definition set_end_pos (cb : circlebuf) (p : Z) : circlebuf :=
  mkcb (data cb) (size cb) (start_pos cb) p (capacity cb).
Definition set_capacity (cb : circlebuf) (c : Z) : circlebuf :=
  mkcb (data cb) (size cb) (start_pos cb) (end_pos cb) c.

(** [memset(cb, 0, sizeof(struct circlebuf))]. *)
Definition zeroed : circlebuf := mkcb [] 0 0 0 0.

Definition circlebuf_init (cb : circlebuf) : circlebuf := zeroed.

Definition circlebuf_free (cb : circlebuf) : circlebuf := zeroed.

Definition circlebuf_reorder_data (cb : circlebuf) (new_capacity : Z)
  : option circlebuf :=
  if (size cb =? 0) || (start_pos cb =? 0) || (start_pos cb <? end_pos cb)
  then Some cb
  else
    let difference := wrap (new_capacity - capacity cb) in
    d <- memmove (data cb) (start_pos cb + difference) (start_pos cb)
           (wrap (capacity cb - start_pos cb)) ;;
    Some (set_start_pos (set_data cb d) (wrap (start_pos cb + difference))).

Definition circlebuf_ensure_capacity (cb : circlebuf) : option circlebuf :=
  if size cb <=? capacity cb then Some cb
  else
    let new_capacity := wrap (capacity cb * 2) in
    let new_capacity :=
      if new_capacity <? size cb then size cb else new_capacity in
    d <- brealloc (data cb) new_capacity ;;
    cb <- circlebuf_reorder_data (set_data cb d) new_capacity ;;
    Some (set_capacity cb new_capacity).

Definition circlebuf_reserve (cb : circlebuf) (capacity' : Z)
  : option circlebuf :=
  if capacity' <=? capacity cb then Some cb
  else
    d <- brealloc (data cb) capacity' ;;
    cb <- circlebuf_reorder_data (set_data cb d) capacity' ;;
    Some (set_capacity cb capacity').

Definition circlebuf_upsize (cb : circlebuf) (size' : Z) : option circlebuf :=
  let add_size := wrap (size' - size cb) in
  let new_end_pos := wrap (end_pos cb + add_size) in
  if size' <=? size cb then Some cb
  else
    cb <- circlebuf_ensure_capacity (set_size cb size') ;;
    if capacity cb <? new_end_pos then
      let back_size := wrap (capacity cb - end_pos cb) in
      let loop_size := wrap (add_size - back_size) in
      d <- (if back_size =? 0 then Some (data cb)
            else memset0 (data cb) (end_pos cb) back_size) ;;
      d <- memset0 d 0 loop_size ;;
      Some (set_end_pos (set_data cb d) (wrap (new_end_pos - capacity cb)))
    else
      d <- memset0 (data cb) (end_pos cb) add_size ;;
      Some (set_end_pos (set_data cb d) new_end_pos).

(** Overwrites data at a specific point in the buffer (relative). *)
Definition circlebuf_place (cb : circlebuf) (position : Z) (src : block)
  : option circlebuf :=
  let n := len src in
  let end_point := wrap (position + n) in
  cb <- (if size cb <? end_point then circlebuf_upsize cb end_point
         else Some cb) ;;
  let position := wrap (position + start_pos cb) in
  let position :=
    if capacity cb <=? position then wrap (position - capacity cb)
    else position in
  let data_end_pos := wrap (position + n) in
  if capacity cb <? data_end_pos then
    let back_size := wrap (data_end_pos - capacity cb) in
    let loop_size := wrap (n - back_size) in
    d <- memcpy (data cb) position src 0 loop_size ;;
    d <- memcpy d 0 src loop_size back_size ;;
    Some (set_data cb d)
  else
    d <- memcpy (data cb) position src 0 n ;;
    Some (set_data cb d).

Definition circlebuf_push_back (cb : circlebuf) (src : block)
  : option circlebuf :=
  let n := len src in
  let new_end_pos := wrap (end_pos cb + n) in
  cb <- circlebuf_ensure_capacity (set_size cb (wrap (size cb + n))) ;;
  if capacity cb <? new_end_pos then
    let back_size := wrap (capacity cb - end_pos cb) in
    let loop_size := wrap (n - back_size) in
    d <- (if back_size =? 0 then Some (data cb)
          else memcpy (data cb) (end_pos cb) src 0 back_size) ;;
    d <- memcpy d 0 src back_size loop_size ;;
    Some (set_end_pos (set_data cb d) (wrap (new_end_pos - capacity cb)))
  else
    d <- memcpy (data cb) (end_pos cb) src 0 n ;;
    Some (set_end_pos (set_data cb d) new_end_pos).

Definition circlebuf_push_front (cb : circlebuf) (src : block)
  : option circlebuf :=
  let n := len src in
  cb <- circlebuf_ensure_capacity (set_size cb (wrap (size cb + n))) ;;
  if size cb =? n then
    d <- memcpy (data cb) 0 src 0 n ;;
    Some (set_data (set_end_pos (set_start_pos cb 0) n) d)
  else if start_pos cb <? n then
    let back_size := wrap (n - start_pos cb) in
    d <- (if start_pos cb =? 0 then Some (data cb)
          else memcpy (data cb) 0 src back_size (start_pos cb)) ;;
    let start' := wrap (capacity cb - back_size) in
    d <- memcpy d start' src 0 back_size ;;
    Some (set_data (set_start_pos cb start') d)
  else
    let start' := wrap (start_pos cb - n) in
    d <- memcpy (data cb) start' src 0 n ;;
    Some (set_data (set_start_pos cb start') d).

Definition circlebuf_push_back_zero (cb : circlebuf) (n : Z)
  : option circlebuf :=
  let new_end_pos := wrap (end_pos cb + n) in
  cb <- circlebuf_ensure_capacity (set_size cb (wrap (size cb + n))) ;;
  if capacity cb <? new_end_pos then
    let back_size := wrap (capacity cb - end_pos cb) in
    let loop_size := wrap (n - back_size) in
    d <- (if back_size =? 0 then Some (data cb)
          else memset0 (data cb) (end_pos cb) back_size) ;;
    d <- memset0 d 0 loop_size ;;
    Some (set_end_pos (set_data cb d) (wrap (new_end_pos - capacity cb)))
  else
    d <- memset0 (data cb) (end_pos cb) n ;;
    Some (set_end_pos (set_data cb d) new_end_pos).

Definition circlebuf_push_front_zero (cb : circlebuf) (n : Z)
  : option circlebuf :=
  cb <- circlebuf_ensure_capacity (set_size cb (wrap (size cb + n))) ;;
  if size cb =? n then
    d <- memset0 (data cb) 0 n ;;
    Some (set_data (set_end_pos (set_start_pos cb 0) n) d)
  else if start_pos cb <? n then
    let back_size := wrap (n - start_pos cb) in
    d <- (if start_pos cb =? 0 then Some (data cb)
          else memset0 (data cb) 0 (start_pos cb)) ;;
    let start' := wrap (capacity cb - back_size) in
    d <- memset0 d start' back_size ;;
    Some (set_data (set_start_pos cb start') d)
  else
    let start' := wrap (start_pos cb - n) in
    d <- memset0 (data cb) start' n ;;
    Some (set_data (set_start_pos cb start') d).

(** The peeks: [dst] tells whether the destination pointer is non-null; the
    result is what the destination's first [n] bytes hold afterwards (nothing
    is copied to a null destination). [None] is the failed [assert]. *)
Definition circlebuf_peek_front (cb : circlebuf) (dst : bool) (n : Z)
  : option (list byte) :=
  if n <=? size cb then
    if dst then
      let start_size := wrap (capacity cb - start_pos cb) in
      if start_size <? n then
        a <- memread (data cb) (start_pos cb) start_size ;;
        b <- memread (data cb) 0 (wrap (n - start_size)) ;;
        Some (a ++ b)
      else memread (data cb) (start_pos cb) n
    else Some []
  else None.

Definition circlebuf_peek_back (cb : circlebuf) (dst : bool) (n : Z)
  : option (list byte) :=
  if n <=? size cb then
    if dst then
      let back_size := if end_pos cb =? 0 then capacity cb else end_pos cb in
      if back_size <? n then
        let front_size := wrap (n - back_size) in
        let new_end_pos := wrap (capacity cb - front_size) in
        b <- memread (data cb) 0 back_size ;;
        a <- memread (data cb) new_end_pos front_size ;;
        Some (a ++ b)
      else memread (data cb) (end_pos cb - n) n
    else Some []
  else None.

Definition circlebuf_pop_front (cb : circlebuf) (dst : bool) (n : Z)
  : option (circlebuf * list byte) :=
  out <- circlebuf_peek_front cb dst n ;;
  let cb := set_size cb (wrap (size cb - n)) in
  if size cb =? 0 then Some (set_end_pos (set_start_pos cb 0) 0, out)
  else
    let cb := set_start_pos cb (wrap (start_pos cb + n)) in
    if capacity cb <=? start_pos cb
    then Some (set_start_pos cb (wrap (start_pos cb - capacity cb)), out)
    else Some (cb, out).

Definition circlebuf_pop_back (cb : circlebuf) (dst : bool) (n : Z)
  : option (circlebuf * list byte) :=
  out <- circlebuf_peek_back cb dst n ;;
  let cb := set_size cb (wrap (size cb - n)) in
  if size cb =? 0 then Some (set_end_pos (set_start_pos cb 0) 0, out)
  else if end_pos cb <=? n
  then Some (set_end_pos cb (wrap (capacity cb - wrap (n - end_pos cb))), out)
  else Some (set_end_pos cb (wrap (end_pos cb - n)), out).

(** [circlebuf_data]: [None] is [NULL], [Some off] the pointer
    [cb->data + off]. *)
Definition circlebuf_data (cb : circlebuf) (idx : Z) : option Z :=
  let offset := wrap (start_pos cb + idx) in
  if size cb <=? idx then None
  else if capacity cb <=? offset then Some (wrap (offset - capacity cb))
  else Some offset.

(** *** Reading the buffer as a byte sequence *)

(** Offset in the block of the byte at logical position [i] (counted from
    [start_pos], wrapping at [capacity]). *)
Definition phys (cb : circlebuf) (i : Z) : Z :=
  let p := start_pos cb + i in
  if p <? capacity cb then p else p - capacity cb.

Definition logical (cb : circlebuf) (i : Z) : byte := load (data cb) (phys cb i).

Definition indices (n : Z) : list Z := map Z.of_nat (seq 0 (Z.to_nat n)).

(** [n] bytes starting at [start_pos], read circularly. *)
Definition read_circular (cb : circlebuf) (n : Z) : list byte :=
  map (logical cb) (indices n).

(** The stored content: the [size] bytes starting at [start_pos]. *)
Definition contents (cb : circlebuf) : list byte := read_circular cb (size cb).

(** The states the operations produce from an initialised buffer: the
    invariant of the data model ([size <= capacity], an empty buffer has both
    positions at 0) together with what ties the fields to each other and to
    the block. *)
Definition wf (cb : circlebuf) : Prop :=
  len (data cb) = capacity cb /\
  capacity cb <= PTRDIFF_MAX /\
  0 <= size cb <= capacity cb /\
  (size cb = 0 -> start_pos cb = 0 /\ end_pos cb = 0) /\
  (0 < size cb ->
   0 <= start_pos cb < capacity cb /\
   0 < end_pos cb <= capacity cb /\
   (end_pos cb = start_pos cb + size cb \/
    end_pos cb = start_pos cb + size cb - capacity cb)).

(** The invariant as the data model words it. *)
Definition invariant (cb : circlebuf) : Prop :=
  size cb <= capacity cb /\
  (size cb = 0 -> start_pos cb = 0 /\ end_pos cb = 0).

(** An allocation of [s] bytes for a buffer of capacity [capacity cb] can be
    served: either none is needed or the request is within [PTRDIFF_MAX]. *)
Definition alloc_ok (cb : circlebuf) (s : Z) : Prop :=
  s <= capacity cb \/ Z.max (2 * capacity cb) s <= PTRDIFF_MAX.

(** The capacity after [circlebuf_ensure_capacity] for a size of [s]:
    unchanged when [s] fits, else the larger of twice the capacity and [s]. *)
Definition grown_capacity (cb : circlebuf) (s : Z) : Z :=
  if s <=? capacity cb then capacity cb else Z.max (2 * capacity cb) s.

(** *** Calls and runs *)

(** The queue operations: pushes, peeks and pops. *)
Inductive queue_op : Type :=
| PushBack (src : block)
| PushFront (src : block)
| PeekFront (dst : bool) (n : Z)
| PeekBack (dst : bool) (n : Z)
| PopFront (dst : bool) (n : Z)
| PopBack (dst : bool) (n : Z).

(** One call: the buffer afterwards and the bytes handed to the caller. *)
Definition exec (o : queue_op) (cb : circlebuf)
  : option (circlebuf * list byte) :=
  match o with
  | PushBack src => cb' <- circlebuf_push_back cb src ;; Some (cb', [])
  | PushFront src => cb' <- circlebuf_push_front cb src ;; Some (cb', [])
  | PeekFront dst n => out <- circlebuf_peek_front cb dst n ;; Some (cb, out)
  | PeekBack dst n => out <- circlebuf_peek_back cb dst n ;; Some (cb, out)
  | PopFront dst n => circlebuf_pop_front cb dst n
  | PopBack dst n => circlebuf_pop_back cb dst n
  end.

(** A sequence of calls, with the output of each. *)
Fixpoint run (ops : list queue_op) (cb : circlebuf)
  : option (circlebuf * list (list byte)) :=
  match ops with
  | [] => Some (cb, [])
  | o :: ops' =>
      r <- exec o cb ;;
      r' <- run ops' (fst r) ;;
      Some (fst r', snd r :: snd r')
  end.

(** Every operation of the buffer. *)
Inductive call : Type :=
| Init
| Free
| Reserve (c : Z)
| Upsize (s : Z)
| Place (position : Z) (src : block)
| PushBackZero (n : Z)
| PushFrontZero (n : Z)
| Data (idx : Z)
| Queue (o : queue_op).

Definition step (c : call) (cb : circlebuf) : option circlebuf :=
  match c with
  | Init => Some (circlebuf_init cb)
  | Free => Some (circlebuf_free cb)
  | Reserve c => circlebuf_reserve cb c
  | Upsize s => circlebuf_upsize cb s
  | Place position src => circlebuf_place cb position src
  | PushBackZero n => circlebuf_push_back_zero cb n
  | PushFrontZero n => circlebuf_push_front_zero cb n
  | Data idx => Some cb
  | Queue o => r <- exec o cb ;; Some (fst r)
  end.

(** [circlebuf_init] and [circlebuf_free] reset the whole struct. *)
Definition resets (c : call) : bool :=
  match c with
  | Init | Free => true
  | _ => false
  end.

(** Arguments a caller can pass: a [size_t] is between 0 and [SIZE_MAX], and
    a byte count or a source block is at most [PTRDIFF_MAX] bytes, the
    largest object there is. *)
Definition valid_queue_op (o : queue_op) : Prop :=
  match o with
  | PushBack src | PushFront src => len src <= PTRDIFF_MAX
  | PeekFront _ n | PeekBack _ n | PopFront _ n | PopBack _ n =>
      0 <= n <= SIZE_MAX
  end.

Definition valid_call (c : call) : Prop :=
  match c with
  | Init | Free => True
  | Reserve c => 0 <= c <= SIZE_MAX
  | Upsize s => 0 <= s <= SIZE_MAX
  | Place position src => 0 <= position <= SIZE_MAX /\ len src <= PTRDIFF_MAX
  | PushBackZero n | PushFrontZero n => 0 <= n <= PTRDIFF_MAX
  | Data idx => 0 <= idx <= SIZE_MAX
  | Queue o => valid_queue_op o
  end.

End WithHeap.

(** *** The byte queue the buffer implements

    The reference the buffer is compared with: a plain sequence of bytes,
    oldest byte of the front first. Pushing at the back appends, pushing at
    the front prepends; the front operations take the first [n] bytes (first
    in, first out), the back operations the last [n] (last in, first out),
    in both cases in the order they are stored. Asking for more than is
    stored is an error. *)

Definition front (n : Z) (q : list byte) : list byte := firstn (Z.to_nat n) q.
Definition back (n : Z) (q : list byte) : list byte :=
  skipn (Z.to_nat (len q - n)) q.
Definition drop_front (n : Z) (q : list byte) : list byte :=
  skipn (Z.to_nat n) q.
Definition drop_back (n : Z) (q : list byte) : list byte :=
  firstn (Z.to_nat (len q - n)) q.
Definition within (n : Z) (q : list byte) : bool := (0 <=? n) && (n <=? len q).

Definition queue_exec (o : queue_op) (q : list byte)
  : option (list byte * list byte) :=
  match o with
  | PushBack src => Some (q ++ src, [])
  | PushFront src => Some (src ++ q, [])
  | PeekFront dst n =>
      if within n q then Some (q, if dst then front n q else []) else None
  | PeekBack dst n =>
      if within n q then Some (q, if dst then back n q else []) else None
  | PopFront dst n =>
      if within n q
      then Some (drop_front n q, if dst then front n q else []) else None
  | PopBack dst n =>
      if within n q
      then Some (drop_back n q, if dst then back n q else []) else None
  end.

Fixpoint queue_run (ops : list queue_op) (q : list byte)
  : option (list byte * list (list byte)) :=
  match ops with
  | [] => Some (q, [])
  | o :: ops' =>
      r <- queue_exec o q ;;
      r' <- queue_run ops' (fst r) ;;
      Some (fst r', snd r :: snd r')
  end.

(** Bytes pushed and bytes popped by a sequence of calls. *)
Fixpoint pushed (ops : list queue_op) : Z :=
  match ops with
  | [] => 0
  | (PushBack src | PushFront src) :: ops' => len src + pushed ops'
  | _ :: ops' => pushed ops'
  end.

Fixpoint popped (ops : list queue_op) : Z :=
  match ops with
  | [] => 0
  | (PopFront _ n | PopBack _ n) :: ops' => n + popped ops'
  | _ :: ops' => popped ops'
  end.

(** *** Sample inputs *)

(** A heap whose fresh bytes read [0xff]. *)
Definition ff : Z -> byte := fun _ => xff.

(** A buffer of capacity 8 holding ["abcd"], wrapped around the end of its
    block: ["ab"] at offsets 6 and 7, ["cd"] at offsets 0 and 1. *)
Definition cb_wrapped : circlebuf :=
  mkcb ["c"; "d"; "-"; "-"; "-"; "-"; "a"; "b"]%byte 4 6 2 8.

End CircleBuf.

(** ** class WAVSource: the inline helpers *)

Module WAVSource.

(** *** binary32 arithmetic *)

Definition prec : Z := 24.
Definition emax : Z := 128.

Definition float : Type := spec_float.

Definition fadd : float -> float -> float := SFadd prec emax.
Definition fsub : float -> float -> float := SFsub prec emax.
Definition fmul : float -> float -> float := SFmul prec emax.
Definition fdiv : float -> float -> float := SFdiv prec emax.
Definition fneg : float -> float := SFopp.
Definition flt : float -> float -> bool := SFltb.
Definition fle : float -> float -> bool := SFleb.

(** [0.0f], negative infinity, and a literal with an integer value. *)
Definition zero : float := S754_zero false.
Definition neg_infinity : float := S754_infinity true.
Definition of_Z (z : Z) : float := binary_normalize prec emax z 0 false.

Definition is_nan (x : float) : bool :=
  match x with
  | S754_nan => true
  | _ => false
  end.

(** The positive normal numbers ([2^-126] and above), positive infinity
    included. *)
Definition positive_normal (x : float) : bool :=
  match x with
  | S754_infinity false => true
  | S754_finite false m e =>
      (Zpos (digits2_pos m) =? prec) && bounded prec emax m e
  | _ => false
  end.

(** *** State *)

Inductive TSmoothingMode : Type := NONE | EXPONENTIAL | TVEXPONENTIAL.

Definition is_none (m : TSmoothingMode) : bool :=
  match m with
  | NONE => true
  | _ => false
  end.

(** The members the helpers read: [m_audio_ts] is a [uint64_t],
    [m_ts_offset] an [int64_t], [m_gravity] a [float]. *)
Record wavsource : Type := mkws {
  m_audio_ts : Z;
  m_ts_offset : Z;
  m_tsmoothing : TSmoothingMode;
  m_gravity : float
}.

(** *** get_audio_sync *)

(** Conversion of a 64-bit pattern to [int64_t]. *)
Definition to_int64 (z : Z) : Z := (z + 2 ^ 63) mod 2 ^ 64 - 2 ^ 63.

(** 16 seconds in ns. *)
Definition MAX_TS_DELTA : Z := wrap (1000000000 * 16).

(** The local [audio_ts]: the end of available audio, [m_audio_ts +
    m_ts_offset] in [uint64_t] arithmetic. *)
Definition audio_end (w : wavsource) : Z :=
  wrap (m_audio_ts w + wrap (m_ts_offset w)).

Definition get_audio_sync (w : wavsource) (ts : Z) : Z :=
  let audio_ts := audio_end w in
  let delta := wrap (Z.max audio_ts ts - Z.min audio_ts ts) in
  let delta := Z.min delta MAX_TS_DELTA in
  if audio_ts <? ts then to_int64 (- to_int64 delta) else to_int64 delta.

(** *** dbfs and get_gravity *)

Section Libm.

(** [std::log10] and [std::exp] on [float], from the C++ library. *)
Variable log10f : float -> float.
Variable expf : float -> float.

(** [lerp] is declared outside this header. *)
Variable lerp : float -> float -> float -> float.

(** [DB_MIN] is declared here ([static const float DB_MIN;]) and defined
    outside this header. *)
Variable DB_MIN : float.

Definition dbfs (mag : float) : float :=
  if flt zero mag then fmul (of_Z 20) (log10f mag) else DB_MIN.

(** [0.03868924705242879469662125316986f]: the binary32 number nearest to
    the literal, [10385566 * 2^-28]. *)
Definition denom : float := S754_finite false 10385566 (-28).
Definition hi : float := fmul denom (of_Z 5).
Definition lo : float := zero.

(** [get_gravity] with what it divides by: the value returned, and the
    denominators of the divisions evaluated on the way. *)
Definition get_gravity_eval (w : wavsource) (seconds : float)
  : float * list float :=
  if is_none (m_tsmoothing w) || fle (m_gravity w) zero then (zero, [])
  else
    match m_tsmoothing w with
    | TVEXPONENTIAL =>
        let d := lerp lo hi (m_gravity w) in
        (expf (fdiv (fneg seconds) d), [d])
    | _ => (m_gravity w, [])
    end.

Definition get_gravity (w : wavsource) (seconds : float) : float :=
  fst (get_gravity_eval w seconds).

Definition divisors (w : wavsource) (seconds : float) : list float :=
  snd (get_gravity_eval w seconds).

End Libm.

(** Modelled from the spec: [lerp], which the header calls and does not
    define; the spec names it as the linear interpolation in
    [exp(-seconds / lerp(0, 5k, gravity))]. This is the usual
    [a + t * (b - a)] in [float]. *)
Definition lerp_linear (a b t : float) : float := fadd a (fmul t (fsub b a)).

(** *** Sample values *)

Definition f_one : float := of_Z 1.
Definition f_minus_one : float := of_Z (-1).
(** The smallest positive [float], [2^-149]. *)
Definition f_tiny : float := S754_finite false 1 (-149).
(** [-120.0f], a floor. *)
Definition f_floor : float := of_Z (-120).
(** [x |-> x], standing for a library function where its values do not
    matter. *)
Definition f_id : float -> float := fun x => x.

End WAVSource.

(** * Properties *)

(** ** Machine integers and heap blocks *)

(** Splitting conjunctions, and case analysis on integer comparisons. *)
Ltac splits := repeat match goal with |- _ /\ _ => split end.

Ltac zbool :=
  repeat match goal with
  | |- context [Z.ltb ?a ?b] => destruct (Z.ltb_spec a b); try lia
  | |- context [Z.leb ?a ?b] => destruct (Z.leb_spec a b); try lia
  | |- context [Z.eqb ?a ?b] => destruct (Z.eqb_spec a b); try lia
  end; cbn [andb orb negb bind].

Lemma wrap_small z : 0 <= z <= SIZE_MAX -> wrap z = z.
Proof. unfold wrap, SIZE_MAX, SIZE_MOD. intros. apply Z.mod_small. lia. Qed.

Lemma len_nonneg m : 0 <= len m.
Proof. unfold len. lia. Qed.

Lemma len_app a b : len (a ++ b) = len a + len b.
Proof. unfold len. rewrite length_app. lia. Qed.

Lemma len_repeat x n : 0 <= n -> len (repeat x (Z.to_nat n)) = n.
Proof. unfold len. rewrite repeat_length. lia. Qed.

Lemma len_slice m off n :
  0 <= off -> 0 <= n -> off + n <= len m -> len (slice m off n) = n.
Proof.
  unfold len, slice. intros. rewrite length_firstn, length_skipn. lia.
Qed.

Lemma len_overwrite m off bs :
  0 <= off -> off + len bs <= len m -> len (overwrite m off bs) = len m.
Proof.
  unfold overwrite, len. intros.
  rewrite !length_app, length_firstn, length_skipn. lia.
Qed.

Lemma load_app a b i :
  0 <= i -> load (a ++ b) i = if i <? len a then load a i else load b (i - len a).
Proof.
  unfold load, len. intros. destruct (Z.ltb_spec i (Z.of_nat (length a))).
  - apply app_nth1. lia.
  - rewrite app_nth2 by lia. f_equal. lia.
Qed.

Lemma load_firstn m n i :
  0 <= i < n -> load (firstn (Z.to_nat n) m) i = load m i.
Proof.
  unfold load. intros. rewrite nth_firstn.
  destruct (Nat.ltb_spec (Z.to_nat i) (Z.to_nat n)); [reflexivity | lia].
Qed.

Lemma load_skipn m k i :
  0 <= k -> 0 <= i -> load (skipn (Z.to_nat k) m) i = load m (k + i).
Proof.
  unfold load. intros. rewrite nth_skipn. f_equal. lia.
Qed.

Lemma load_slice m off n i :
  0 <= off -> 0 <= i < n -> load (slice m off n) i = load m (off + i).
Proof.
  unfold slice. intros. rewrite load_firstn by lia. apply load_skipn; lia.
Qed.

Lemma load_repeat n i : load (repeat x00 n) i = x00.
Proof. unfold load. apply nth_repeat. Qed.

Lemma load_overwrite m off bs i :
  0 <= off -> off + len bs <= len m -> 0 <= i ->
  load (overwrite m off bs) i =
  if (off <=? i) && (i <? off + len bs) then load bs (i - off) else load m i.
Proof.
  intros Hoff Hin Hi. unfold overwrite.
  pose proof (len_nonneg bs) as Hb.
  assert (Hl : len (firstn (Z.to_nat off) m) = off).
  { unfold len in *. rewrite length_firstn. lia. }
  rewrite load_app, Hl by lia.
  destruct (Z.ltb_spec i off).
  - rewrite load_firstn by lia.
    destruct (Z.leb_spec off i); [lia | reflexivity].
  - rewrite load_app by lia.
    destruct (Z.leb_spec off i); [| lia]. simpl.
    destruct (Z.ltb_spec (i - off) (len bs)), (Z.ltb_spec i (off + len bs));
      try lia; [reflexivity |].
    rewrite load_skipn by lia. f_equal. lia.
Qed.

Lemma load_ext a b :
  len a = len b -> (forall i, 0 <= i < len a -> load a i = load b i) -> a = b.
Proof.
  unfold len, load. intros Hl H. apply (nth_ext a b x00 x00); [lia |].
  intros n Hn. specialize (H (Z.of_nat n)). rewrite Nat2Z.id in H.
  apply H. lia.
Qed.

Lemma memread_ok m off n :
  0 <= off -> 0 <= n -> off + n <= len m -> memread m off n = Some (slice m off n).
Proof.
  intros. unfold memread.
  destruct (Z.leb_spec 0 off), (Z.leb_spec 0 n), (Z.leb_spec (off + n) (len m));
    try lia; reflexivity.
Qed.

Lemma memwrite_ok m off bs :
  0 <= off -> off + len bs <= len m -> memwrite m off bs = Some (overwrite m off bs).
Proof.
  intros. unfold memwrite.
  destruct (Z.leb_spec 0 off), (Z.leb_spec (off + len bs) (len m));
    try lia; reflexivity.
Qed.

Lemma memcpy_ok dst doff src soff n :
  0 <= doff -> doff + n <= len dst -> 0 <= soff -> 0 <= n -> soff + n <= len src ->
  memcpy dst doff src soff n = Some (overwrite dst doff (slice src soff n)).
Proof.
  intros. unfold memcpy. rewrite memread_ok by lia. simpl.
  apply memwrite_ok; rewrite ?len_slice; lia.
Qed.

Lemma memset0_ok m off n :
  0 <= off -> 0 <= n -> off + n <= len m ->
  memset0 m off n = Some (overwrite m off (repeat x00 (Z.to_nat n))).
Proof.
  intros. unfold memset0. destruct (Z.leb_spec 0 n); [| lia].
  apply memwrite_ok; rewrite ?len_repeat; lia.
Qed.

(** ** The ring buffer *)

Module CircleBufFacts.
Import CircleBuf.

Ltac fields := cbn [data size start_pos end_pos capacity
                    set_data set_size set_start_pos set_end_pos set_capacity] in *.

Ltac len_solve :=
  repeat first
    [ rewrite len_slice by lia
    | rewrite len_repeat by lia
    | rewrite len_overwrite by len_solve ];
  lia.

Ltac load_step :=
  first
    [ rewrite load_overwrite by len_solve
    | rewrite load_slice by lia
    | rewrite load_repeat
    | rewrite len_slice by lia
    | rewrite len_repeat by lia
    | rewrite len_overwrite by len_solve ].

Ltac loads :=
  repeat first [load_step | progress zbool];
  try reflexivity; try (f_equal; lia).

Ltac unwrap :=
  repeat match goal with
  | |- context [wrap ?x] =>
      rewrite (wrap_small x) by (unfold SIZE_MAX, PTRDIFF_MAX in *; lia)
  end.

Lemma len_indices n : length (indices n) = Z.to_nat n.
Proof. unfold indices. now rewrite length_map, length_seq. Qed.

Lemma len_read_circular cb n : 0 <= n -> len (read_circular cb n) = n.
Proof.
  intros. unfold len, read_circular. rewrite length_map, len_indices. lia.
Qed.

Lemma load_read_circular cb n i :
  0 <= i < n -> load (read_circular cb n) i = logical cb i.
Proof.
  intros. unfold load, read_circular, indices.
  rewrite nth_indep with (d' := logical cb 0)
    by (rewrite !length_map, length_seq; lia).
  rewrite map_nth. f_equal.
  change 0 with (Z.of_nat 0%nat). rewrite map_nth, seq_nth by lia. lia.
Qed.

Lemma read_circular_ext a b n :
  (forall i, 0 <= i < n -> logical a i = logical b i) ->
  read_circular a n = read_circular b n.
Proof.
  intros H. destruct (Z.le_gt_cases 0 n) as [Hn | Hn].
  - apply load_ext.
    + now rewrite !len_read_circular.
    + intros i Hi. rewrite len_read_circular in Hi by lia.
      rewrite !load_read_circular by lia. now apply H.
  - unfold read_circular, indices.
    replace (Z.to_nat n) with 0%nat by lia. reflexivity.
Qed.

Section Facts.

Variable uninit : Z -> byte.

Lemma brealloc_ok m c :
  len m <= c -> c <= PTRDIFF_MAX ->
  brealloc uninit m c = Some (m ++ fresh uninit (len m) (c - len m)).
Proof.
  intros. unfold brealloc. destruct (Z.leb_spec c PTRDIFF_MAX); [| lia].
  rewrite firstn_all2 by (unfold len in *; lia). reflexivity.
Qed.

Lemma len_fresh a n : 0 <= n -> len (fresh uninit a n) = n.
Proof. intros. unfold len, fresh. rewrite length_map, length_seq. lia. Qed.

Lemma load_grown m a n i :
  0 <= i < len m -> load (m ++ fresh uninit a n) i = load m i.
Proof. intros. rewrite load_app by lia. zbool. reflexivity. Qed.


(** *** Growing the block *)

(** What [brealloc] followed by [circlebuf_reorder_data] and the update of
    [capacity] gives, for a buffer whose [size] field may already have been
    raised to [sz]. *)
Lemma grow_spec cb sz c :
  wf cb -> size cb <= sz -> capacity cb < c -> c <= PTRDIFF_MAX ->
  exists cb1,
    (d <- brealloc uninit (data cb) c ;;
     cb' <- circlebuf_reorder_data (set_data (set_size cb sz) d) c ;;
     Some (set_capacity cb' c)) = Some (set_size cb1 sz) /\
    wf cb1 /\ size cb1 = size cb /\ end_pos cb1 = end_pos cb /\
    capacity cb1 = c /\
    (forall i, 0 <= i < size cb -> logical cb1 i = logical cb i).
Proof.
  destruct cb as [d s st e cap]. unfold wf. cbn [data size start_pos end_pos capacity].
  intros (Hlen & Hcap & Hs & H0 & Hpos) Hsz Hc Hmax.
  rewrite brealloc_ok by lia. cbn [bind].
  set (d' := d ++ fresh uninit (len d) (c - len d)).
  assert (Hd' : len d' = c).
  { unfold d'. rewrite len_app, len_fresh; lia. }
  unfold circlebuf_reorder_data.
  cbn [data size start_pos end_pos capacity set_data set_size].
  destruct ((sz =? 0) || (st =? 0) || (st <? e)) eqn:Hcond.
  - cbn [bind set_capacity data size start_pos end_pos capacity].
    exists (mkcb d' s st e c). cbn [data size start_pos end_pos capacity set_size].
    split; [reflexivity |].
    assert (Hlin : 0 < s -> e = st + s).
    { intros Hs0. specialize (Hpos Hs0).
      apply orb_true_iff in Hcond as [Hcond | Hcond];
        [apply orb_true_iff in Hcond as [Hcond | Hcond] |]; lia. }
    splits; try lia.
    intros i Hi. unfold logical, phys. cbn [data size start_pos end_pos capacity].
    assert (0 < s) as Hs0 by lia. specialize (Hpos Hs0). specialize (Hlin Hs0).
    zbool. unfold d'. apply load_grown. lia.
  - apply orb_false_iff in Hcond as [Hcond Hlt].
    apply orb_false_iff in Hcond as [Hsz0 Hst0].
    assert (Hs0 : 0 < s).
    { destruct (Z.eq_dec s 0) as [E | E]; [| lia].
      destruct (H0 E). lia. }
    specialize (Hpos Hs0).
    assert (Hwrap : e = st + s - cap) by lia.
    unfold memmove. unwrap.
    rewrite memcpy_ok by lia.
    cbn [bind set_capacity set_start_pos set_data data size start_pos end_pos capacity].
    exists (mkcb (overwrite d' (st + (c - cap)) (slice d' st (cap - st)))
              s (st + (c - cap)) e c).
    cbn [data size start_pos end_pos capacity set_size].
    split; [reflexivity |].
    splits; try lia.
    + rewrite len_overwrite; rewrite ?len_slice; lia.
    + intros i Hi. unfold logical, phys.
      cbn [data size start_pos end_pos capacity].
      zbool.
      * rewrite load_overwrite by (rewrite ?len_slice; lia).
        rewrite len_slice by lia. zbool.
        rewrite load_slice by lia. unfold d'. rewrite load_grown by lia.
        f_equal. lia.
      * rewrite load_overwrite by (rewrite ?len_slice; lia).
        rewrite len_slice by lia. zbool.
        unfold d'. rewrite load_grown by lia. f_equal. lia.
Qed.


Lemma alloc_ok_bound cb s : wf cb -> alloc_ok cb s -> s <= PTRDIFF_MAX.
Proof. unfold wf, alloc_ok. lia. Qed.

Lemma ensure_capacity_spec cb s :
  wf cb -> size cb <= s -> alloc_ok cb s ->
  exists cb1,
    circlebuf_ensure_capacity uninit (set_size cb s) = Some (set_size cb1 s) /\
    wf cb1 /\ size cb1 = size cb /\ end_pos cb1 = end_pos cb /\
    capacity cb1 = grown_capacity cb s /\ s <= capacity cb1 /\
    (forall i, 0 <= i < size cb -> logical cb1 i = logical cb i).
Proof.
  intros Hwf Hs Hok. pose proof (alloc_ok_bound _ _ Hwf Hok) as Hb.
  unfold circlebuf_ensure_capacity, grown_capacity.
  cbn [set_size size capacity data].
  destruct (Z.leb_spec s (capacity cb)) as [Hle | Hgt].
  - exists cb. splits; auto; lia.
  - assert (Hc : 2 * capacity cb <= PTRDIFF_MAX /\ 0 <= capacity cb).
    { unfold wf, alloc_ok in *. lia. }
    replace (capacity cb * 2) with (2 * capacity cb) by lia.
    unwrap.
    assert (Hm : (if 2 * capacity cb <? s then s else 2 * capacity cb)
                 = Z.max (2 * capacity cb) s) by (zbool; lia).
    rewrite Hm.
    destruct (grow_spec cb s (Z.max (2 * capacity cb) s) Hwf Hs)
      as (cb1 & E & Hwf1 & Hs1 & He1 & Hc1 & Hl1); try lia.
    exists cb1. splits; auto. lia.
Qed.

Lemma reserve_spec cb c :
  wf cb -> c <= capacity cb \/ c <= PTRDIFF_MAX ->
  exists cb1,
    circlebuf_reserve uninit cb c = Some cb1 /\
    wf cb1 /\ size cb1 = size cb /\ end_pos cb1 = end_pos cb /\
    capacity cb1 = Z.max (capacity cb) c /\
    (forall i, 0 <= i < size cb -> logical cb1 i = logical cb i).
Proof.
  intros Hwf Hc. unfold circlebuf_reserve.
  destruct (Z.leb_spec c (capacity cb)) as [Hle | Hgt].
  - exists cb. splits; auto; lia.
  - destruct (grow_spec cb (size cb) c Hwf) as (cb1 & E & Hwf1 & Hs1 & He1 & Hc1 & Hl1);
      try lia.
    exists cb1. splits; auto; try lia.
    destruct cb, cb1. cbn in *. subst. exact E.
Qed.


(** *** Content of a buffer, pointwise *)

Lemma len_contents cb : 0 <= size cb -> len (contents cb) = size cb.
Proof. apply len_read_circular. Qed.

Lemma load_contents cb i :
  0 <= i < size cb -> load (contents cb) i = logical cb i.
Proof. apply load_read_circular. Qed.

Lemma contents_ext a b :
  size a = size b ->
  (forall i, 0 <= i < size a -> logical a i = logical b i) ->
  contents a = contents b.
Proof. unfold contents. intros <- H. now apply read_circular_ext. Qed.

Lemma contents_back cb' cb bs :
  0 <= size cb -> size cb' = size cb + len bs ->
  (forall i, 0 <= i < size cb -> logical cb' i = logical cb i) ->
  (forall i, 0 <= i < len bs -> logical cb' (size cb + i) = load bs i) ->
  contents cb' = contents cb ++ bs.
Proof.
  intros Hs Hs' Hold Hnew. pose proof (len_nonneg bs).
  apply load_ext.
  - rewrite len_app, !len_contents; lia.
  - intros i Hi. rewrite len_contents in Hi by lia.
    rewrite load_contents, load_app, len_contents by lia.
    destruct (Z.ltb_spec i (size cb)).
    + rewrite load_contents by lia. apply Hold. lia.
    + rewrite <- Hnew by lia. f_equal. lia.
Qed.

Lemma contents_front cb' cb bs :
  0 <= size cb -> size cb' = size cb + len bs ->
  (forall i, 0 <= i < len bs -> logical cb' i = load bs i) ->
  (forall i, 0 <= i < size cb -> logical cb' (len bs + i) = logical cb i) ->
  contents cb' = bs ++ contents cb.
Proof.
  intros Hs Hs' Hnew Hold. pose proof (len_nonneg bs).
  apply load_ext.
  - rewrite len_app, !len_contents; lia.
  - intros i Hi. rewrite len_contents in Hi by lia.
    rewrite load_contents, load_app by lia.
    destruct (Z.ltb_spec i (len bs)).
    + apply Hnew. lia.
    + rewrite load_contents by lia. rewrite <- Hold by lia. f_equal. lia.
Qed.

(** *** push_back *)

Lemma push_back_spec cb src :
  wf cb -> alloc_ok cb (size cb + len src) ->
  exists cb',
    circlebuf_push_back uninit cb src = Some cb' /\
    wf cb' /\ contents cb' = contents cb ++ src /\
    size cb' = size cb + len src /\
    capacity cb' = grown_capacity cb (size cb + len src).
Proof.
  intros Hwf Hok. pose proof (len_nonneg src) as Hn.
  pose proof (alloc_ok_bound _ _ Hwf Hok) as Hb.
  assert (Hsz : 0 <= size cb <= PTRDIFF_MAX /\ 0 <= end_pos cb <= PTRDIFF_MAX)
    by (unfold wf in Hwf; lia).
  unfold circlebuf_push_back.
  rewrite (wrap_small (size cb + len src)) by (unfold SIZE_MAX, PTRDIFF_MAX in *; lia).
  rewrite (wrap_small (end_pos cb + len src)) by (unfold SIZE_MAX, PTRDIFF_MAX in *; lia).
  destruct (ensure_capacity_spec cb (size cb + len src) Hwf) as
    (cb1 & E & Hwf1 & Hs1 & He1 & Hc1 & Hroom & Hl1); [lia | exact Hok |].
  rewrite E. cbn [bind]. rewrite <- Hc1, <- He1. rewrite <- Hs1 in *.
  rewrite <- (contents_ext cb1 cb) by (auto; intros; apply Hl1; lia).
  clear E Hl1 Hc1 He1 Hs1 Hok Hwf cb Hsz.
  destruct cb1 as [d s st e c]. unfold wf in Hwf1. fields.
  destruct Hwf1 as (Hlen & Hcap & Hs & H0 & Hpos).
  remember (len src) as n eqn:En.
  destruct (Z.ltb_spec c (e + n)) as [Hw | Hw].
  - (* the new bytes wrap around the end of the block *)
    assert (Hs0 : 0 < s) by lia. specialize (Hpos Hs0).
    unwrap.
    set (d1 := if c - e =? 0 then d else overwrite d e (slice src 0 (c - e))).
    assert (E1 : (if c - e =? 0 then Some d
                  else memcpy d e src 0 (c - e)) = Some d1).
    { unfold d1. zbool; try reflexivity. apply memcpy_ok; lia. }
    assert (Hd1 : len d1 = c).
    { unfold d1. zbool; try lia. rewrite len_overwrite; rewrite ?len_slice; lia. }
    rewrite E1. cbn [bind]. rewrite memcpy_ok by lia. cbn [bind]. fields.
    eexists. split; [reflexivity |].
    assert (Hload : forall p, 0 <= p < c ->
      load (overwrite d1 0 (slice src (c - e) (n - (c - e)))) p =
      if p <? e + n - c then load src (c - e + p)
      else if e <=? p then load src (p - e) else load d p).
    { intros p Hp. unfold d1. loads. }
    splits.
    + unfold wf. fields. splits; try lia.
      rewrite len_overwrite; rewrite ?len_slice; lia.
    + apply contents_back with (cb := mkcb d s st e c); fields; try lia.
      * intros i Hi. unfold logical, phys. fields. zbool; rewrite Hload by lia; zbool; reflexivity.
      * intros i Hi. unfold logical, phys. fields.
        zbool; rewrite Hload by lia; zbool; f_equal; lia.
    + reflexivity.
    + reflexivity.
  - rewrite memcpy_ok by lia. cbn [bind]. fields.
    eexists. split; [reflexivity |].
    assert (Hsl : slice src 0 n = src).
    { subst n. unfold slice, len. rewrite Nat2Z.id. cbn [skipn Z.to_nat].
      apply firstn_all. }
    rewrite Hsl.
    assert (Hload : forall p, 0 <= p < c ->
      load (overwrite d e src) p =
      if (e <=? p) && (p <? e + n) then load src (p - e) else load d p).
    { intros p Hp. rewrite load_overwrite by lia. now rewrite <- En. }
    splits.
    + unfold wf. fields. splits; try lia.
      rewrite len_overwrite; lia.
    + apply contents_back with (cb := mkcb d s st e c); fields; try lia.
      * intros i Hi. unfold logical, phys. fields. zbool; rewrite Hload by lia; zbool; reflexivity.
      * intros i Hi. unfold logical, phys. fields.
        zbool; rewrite Hload by lia; zbool; f_equal; lia.
    + reflexivity.
    + reflexivity.
Qed.


(** *** push_front *)

Lemma slice_all src : slice src 0 (len src) = src.
Proof.
  unfold slice, len. rewrite Nat2Z.id. cbn [skipn Z.to_nat]. apply firstn_all.
Qed.

Lemma push_front_spec cb src :
  wf cb -> alloc_ok cb (size cb + len src) ->
  exists cb',
    circlebuf_push_front uninit cb src = Some cb' /\
    wf cb' /\ contents cb' = src ++ contents cb /\
    size cb' = size cb + len src /\
    capacity cb' = grown_capacity cb (size cb + len src).
Proof.
  intros Hwf Hok. pose proof (len_nonneg src) as Hn.
  pose proof (alloc_ok_bound _ _ Hwf Hok) as Hb.
  assert (Hsz : 0 <= size cb <= PTRDIFF_MAX) by (unfold wf in Hwf; lia).
  unfold circlebuf_push_front.
  rewrite (wrap_small (size cb + len src)) by (unfold SIZE_MAX, PTRDIFF_MAX in *; lia).
  destruct (ensure_capacity_spec cb (size cb + len src) Hwf) as
    (cb1 & E & Hwf1 & Hs1 & He1 & Hc1 & Hroom & Hl1); [lia | exact Hok |].
  rewrite E. cbn [bind]. rewrite <- Hc1. rewrite <- Hs1 in *.
  rewrite <- (contents_ext cb1 cb) by (auto; intros; apply Hl1; lia).
  clear E Hl1 Hc1 He1 Hs1 Hok Hwf cb Hsz.
  destruct cb1 as [d s st e c]. unfold wf in Hwf1. fields.
  destruct Hwf1 as (Hlen & Hcap & Hs & H0 & Hpos).
  remember (len src) as n eqn:En.
  destruct (Z.eqb_spec (s + n) n) as [Hempty | Hne].
  - (* the buffer was empty *)
    rewrite memcpy_ok by lia. cbn [bind]. fields.
    eexists. split; [reflexivity |].
    rewrite En, slice_all, <- En.
    splits.
    + unfold wf. fields. splits; try lia. rewrite len_overwrite; lia.
    + apply contents_front with (cb := mkcb d s st e c); fields; try lia.
      intros i Hi. unfold logical, phys. fields. zbool.
      rewrite load_overwrite by lia. zbool. f_equal. lia.
    + fields. lia.
    + reflexivity.
  - assert (Hs0 : 0 < s) by lia. specialize (Hpos Hs0).
    destruct (Z.ltb_spec st n) as [Hlt | Hge].
    + (* the new bytes wrap around the start of the block *)
      unwrap.
      set (d1 := if st =? 0 then d else overwrite d 0 (slice src (n - st) st)).
      assert (E1 : (if st =? 0 then Some d
                    else memcpy d 0 src (n - st) st) = Some d1).
      { unfold d1. zbool; try reflexivity. apply memcpy_ok; lia. }
      assert (Hd1 : len d1 = c).
      { unfold d1. zbool; try lia. rewrite len_overwrite; rewrite ?len_slice; lia. }
      rewrite E1. cbn [bind]. rewrite memcpy_ok by lia. cbn [bind]. fields.
      eexists. split; [reflexivity |].
      assert (Hload : forall p, 0 <= p < c ->
        load (overwrite d1 (c - (n - st)) (slice src 0 (n - st))) p =
        if c - (n - st) <=? p then load src (p - (c - (n - st)))
        else if p <? st then load src (n - st + p) else load d p).
      { intros p Hp. unfold d1. loads. }
      splits.
      * unfold wf. fields. splits; try lia.
        rewrite len_overwrite; rewrite ?len_slice; lia.
      * apply contents_front with (cb := mkcb d s st e c); fields; try lia.
        -- intros i Hi. unfold logical, phys. fields.
           zbool; rewrite Hload by lia; zbool; f_equal; lia.
        -- intros i Hi. unfold logical, phys. fields.
           zbool; rewrite Hload by lia; zbool; f_equal; lia.
      * reflexivity.
      * reflexivity.
    + unwrap. rewrite memcpy_ok by lia. cbn [bind]. fields.
      eexists. split; [reflexivity |].
      rewrite En, slice_all, <- En.
      assert (Hload : forall p, 0 <= p < c ->
        load (overwrite d (st - n) src) p =
        if (st - n <=? p) && (p <? st) then load src (p - (st - n)) else load d p).
      { intros p Hp. rewrite load_overwrite by lia. rewrite <- En.
        replace (st - n + n) with st by lia. reflexivity. }
      splits.
      * unfold wf. fields. splits; try lia. rewrite len_overwrite; lia.
      * apply contents_front with (cb := mkcb d s st e c); fields; try lia.
        -- intros i Hi. unfold logical, phys. fields.
           zbool; rewrite Hload by lia; zbool; f_equal; lia.
        -- intros i Hi. unfold logical, phys. fields.
           zbool; rewrite Hload by lia; zbool; f_equal; lia.
      * reflexivity.
      * reflexivity.
Qed.


(** *** The zero-filling variants and [circlebuf_upsize] *)

Lemma len_zeros n : 0 <= n -> len (zeros n) = n.
Proof. apply len_repeat. Qed.

Lemma slice_zeros n off k :
  0 <= off -> 0 <= k -> off + k <= n -> slice (zeros n) off k = zeros k.
Proof.
  intros. apply load_ext.
  - rewrite len_slice, len_zeros; rewrite ?len_zeros; lia.
  - intros i Hi. rewrite len_slice in Hi by (rewrite ?len_zeros; lia).
    rewrite load_slice by lia. unfold zeros. now rewrite !load_repeat.
Qed.

Lemma memcpy_zeros m off n soff k :
  0 <= soff -> 0 <= k -> soff + k <= n ->
  memcpy m off (zeros n) soff k = memset0 m off k.
Proof.
  intros. unfold memcpy, memset0.
  rewrite memread_ok by (rewrite ?len_zeros; lia). cbn [bind].
  rewrite slice_zeros by lia. destruct (Z.leb_spec 0 k); [reflexivity | lia].
Qed.

Lemma push_back_zero_eq cb n :
  wf cb -> 0 <= n -> alloc_ok cb (size cb + n) ->
  circlebuf_push_back_zero uninit cb n = circlebuf_push_back uninit cb (zeros n).
Proof.
  intros Hwf Hn Hok. pose proof (alloc_ok_bound _ _ Hwf Hok) as Hb.
  assert (Hsz : 0 <= size cb <= PTRDIFF_MAX /\ 0 <= end_pos cb <= PTRDIFF_MAX)
    by (unfold wf in Hwf; lia).
  unfold circlebuf_push_back_zero, circlebuf_push_back.
  rewrite len_zeros by lia.
  rewrite (wrap_small (size cb + n)) by (unfold SIZE_MAX, PTRDIFF_MAX in *; lia).
  rewrite (wrap_small (end_pos cb + n)) by (unfold SIZE_MAX, PTRDIFF_MAX in *; lia).
  destruct (ensure_capacity_spec cb (size cb + n) Hwf) as
    (cb1 & E & Hwf1 & Hs1 & He1 & Hc1 & Hroom & Hl1); [lia | exact Hok |].
  rewrite E. cbn [bind]. rewrite <- He1. rewrite <- Hs1 in *.
  clear E Hl1 Hc1 He1 Hs1 Hok Hwf cb Hsz.
  destruct cb1 as [d s st e c]. unfold wf in Hwf1. fields.
  destruct Hwf1 as (Hlen & Hcap & Hs & H0 & Hpos).
  destruct (Z.ltb_spec c (e + n)) as [Hw | Hw].
  - assert (Hs0 : 0 < s) by lia. specialize (Hpos Hs0). unwrap.
    rewrite memcpy_zeros by lia.
    destruct (c - e =? 0); cbn [bind].
    + now rewrite memcpy_zeros by lia.
    + destruct (memset0 d e (c - e)); cbn [bind]; [| reflexivity].
      now rewrite memcpy_zeros by lia.
  - now rewrite memcpy_zeros by lia.
Qed.

Lemma push_front_zero_eq cb n :
  wf cb -> 0 <= n -> alloc_ok cb (size cb + n) ->
  circlebuf_push_front_zero uninit cb n =
  circlebuf_push_front uninit cb (zeros n).
Proof.
  intros Hwf Hn Hok. pose proof (alloc_ok_bound _ _ Hwf Hok) as Hb.
  assert (Hsz : 0 <= size cb <= PTRDIFF_MAX) by (unfold wf in Hwf; lia).
  unfold circlebuf_push_front_zero, circlebuf_push_front.
  rewrite len_zeros by lia.
  rewrite (wrap_small (size cb + n)) by (unfold SIZE_MAX, PTRDIFF_MAX in *; lia).
  destruct (ensure_capacity_spec cb (size cb + n) Hwf) as
    (cb1 & E & Hwf1 & Hs1 & He1 & Hc1 & Hroom & Hl1); [lia | exact Hok |].
  rewrite E. cbn [bind]. rewrite <- Hs1 in *.
  clear E Hl1 Hc1 He1 Hs1 Hok Hwf cb Hsz.
  destruct cb1 as [d s st e c]. unfold wf in Hwf1. fields.
  destruct Hwf1 as (Hlen & Hcap & Hs & H0 & Hpos).
  destruct (Z.eqb_spec (s + n) n) as [Hempty | Hne].
  - now rewrite memcpy_zeros by lia.
  - assert (Hs0 : 0 < s) by lia. specialize (Hpos Hs0).
    destruct (Z.ltb_spec st n) as [Hlt | Hge]; unwrap.
    + rewrite memcpy_zeros by lia.
      destruct (st =? 0); cbn [bind].
      * now rewrite memcpy_zeros by lia.
      * destruct (memset0 d 0 st); cbn [bind]; [| reflexivity].
        now rewrite memcpy_zeros by lia.
    + now rewrite memcpy_zeros by lia.
Qed.

Lemma upsize_eq cb s :
  0 <= size cb < s -> s <= SIZE_MAX ->
  circlebuf_upsize uninit cb s =
  circlebuf_push_back_zero uninit cb (s - size cb).
Proof.
  intros Hs Hmax. unfold circlebuf_upsize, circlebuf_push_back_zero.
  destruct (Z.leb_spec s (size cb)); [lia |].
  rewrite (wrap_small (s - size cb)) by lia.
  replace (size cb + (s - size cb)) with s by lia.
  rewrite (wrap_small s) by lia. reflexivity.
Qed.

Lemma upsize_spec cb s :
  wf cb -> size cb <= s -> alloc_ok cb s ->
  exists cb',
    circlebuf_upsize uninit cb s = Some cb' /\
    wf cb' /\ contents cb' = contents cb ++ zeros (s - size cb) /\
    size cb' = s /\ capacity cb' = grown_capacity cb s.
Proof.
  intros Hwf Hs Hok. pose proof (alloc_ok_bound _ _ Hwf Hok) as Hb.
  assert (Hsz : 0 <= size cb) by (unfold wf in Hwf; lia).
  destruct (Z.eq_dec s (size cb)) as [-> | Hne].
  - exists cb. unfold circlebuf_upsize. rewrite Z.leb_refl.
    replace (size cb - size cb) with 0 by lia. cbn [zeros Z.to_nat repeat].
    rewrite app_nil_r. unfold grown_capacity.
    destruct (Z.leb_spec (size cb) (capacity cb)); [auto | unfold wf in Hwf; lia].
  - rewrite upsize_eq by (unfold SIZE_MAX, PTRDIFF_MAX in *; lia).
    assert (Hok' : alloc_ok cb (size cb + (s - size cb)))
      by (replace (size cb + (s - size cb)) with s by lia; exact Hok).
    rewrite push_back_zero_eq by (auto; lia).
    destruct (push_back_spec cb (zeros (s - size cb)) Hwf)
      as (cb' & E & Hwf' & Hc & Hs' & Hcap).
    { rewrite len_zeros by lia. exact Hok'. }
    rewrite len_zeros in * by lia.
    replace (size cb + (s - size cb)) with s in * by lia.
    exists cb'. auto.
Qed.


End Facts.

(** *** Peeking and popping *)

Lemma len_firstn l n : 0 <= n <= len l -> len (firstn (Z.to_nat n) l) = n.
Proof. unfold len. intros. rewrite length_firstn. lia. Qed.

Lemma len_skipn l n : 0 <= n <= len l -> len (skipn (Z.to_nat n) l) = len l - n.
Proof. unfold len. intros. rewrite length_skipn. lia. Qed.

Lemma peek_front_spec cb n :
  wf cb -> 0 <= n <= size cb ->
  circlebuf_peek_front cb true n = Some (firstn (Z.to_nat n) (contents cb)).
Proof.
  intros Hwf Hn. destruct cb as [d s st e c]. unfold wf in Hwf. fields.
  destruct Hwf as (Hlen & Hcap & Hs & H0 & Hpos).
  unfold circlebuf_peek_front. fields.
  destruct (Z.leb_spec n s); [| lia].
  assert (Hst : 0 <= st <= c) by lia.
  unwrap.
  assert (Hc : len (contents (mkcb d s st e c)) = s) by (apply len_contents; fields; lia).
  destruct (Z.ltb_spec (c - st) n) as [Hw | Hw].
  - unwrap. rewrite !memread_ok by lia. cbn [bind]. f_equal.
    apply load_ext.
    + rewrite len_app, !len_slice, len_firstn by lia. lia.
    + intros i Hi. rewrite len_app, !len_slice in Hi by lia.
      rewrite load_firstn, load_contents, load_app, len_slice by (fields; lia).
      unfold logical, phys. fields. zbool; rewrite load_slice by lia; f_equal; lia.
  - rewrite memread_ok by lia. f_equal.
    apply load_ext.
    + rewrite len_slice, len_firstn by lia. lia.
    + intros i Hi. rewrite len_slice in Hi by lia.
      rewrite load_firstn, load_contents, load_slice by (fields; lia).
      unfold logical, phys. fields. zbool. reflexivity.
Qed.

Lemma peek_back_spec cb n :
  wf cb -> 0 <= n <= size cb ->
  circlebuf_peek_back cb true n =
  Some (skipn (Z.to_nat (size cb - n)) (contents cb)).
Proof.
  intros Hwf Hn. destruct cb as [d s st e c]. unfold wf in Hwf. fields.
  destruct Hwf as (Hlen & Hcap & Hs & H0 & Hpos).
  unfold circlebuf_peek_back. fields.
  destruct (Z.leb_spec n s); [| lia].
  assert (Hc : len (contents (mkcb d s st e c)) = s) by (apply len_contents; fields; lia).
  assert (Hget : forall i, 0 <= i < n ->
    load (skipn (Z.to_nat (s - n)) (contents (mkcb d s st e c))) i =
    load d (phys (mkcb d s st e c) (s - n + i))).
  { intros i Hi. rewrite load_skipn, load_contents by (fields; lia). reflexivity. }
  destruct (Z.eqb_spec e 0) as [He | He].
  - assert (s = 0) by lia. assert (n = 0) by lia. subst s n.
    destruct (H0 eq_refl) as [-> _].
    destruct (Z.ltb_spec c 0); [lia |].
    rewrite memread_ok by lia. f_equal.
  - assert (Hs0 : 0 < s) by lia. specialize (Hpos Hs0).
    destruct (Z.ltb_spec e n) as [Hw | Hw].
    + unwrap. rewrite !memread_ok by lia. cbn [bind]. f_equal.
      apply load_ext.
      * rewrite len_app, !len_slice, len_skipn by lia. lia.
      * intros i Hi. rewrite len_app, !len_slice in Hi by lia.
        rewrite Hget, load_app, len_slice by lia.
        unfold phys. fields. zbool; rewrite load_slice by lia; f_equal; lia.
    + rewrite memread_ok by lia. f_equal.
      apply load_ext.
      * rewrite len_slice, len_skipn by lia. lia.
      * intros i Hi. rewrite len_slice in Hi by lia.
        rewrite Hget, load_slice by lia.
        unfold phys. fields. zbool; f_equal; lia.
Qed.

Lemma peek_null cb n :
  n <= size cb ->
  circlebuf_peek_front cb false n = Some [] /\
  circlebuf_peek_back cb false n = Some [].
Proof.
  intros. unfold circlebuf_peek_front, circlebuf_peek_back.
  destruct (Z.leb_spec n (size cb)); [auto | lia].
Qed.

Lemma pop_front_spec cb dst n :
  wf cb -> 0 <= n <= size cb ->
  exists cb',
    circlebuf_pop_front cb dst n =
    Some (cb', if dst then firstn (Z.to_nat n) (contents cb) else []) /\
    wf cb' /\ contents cb' = skipn (Z.to_nat n) (contents cb) /\
    size cb' = size cb - n /\ capacity cb' = capacity cb.
Proof.
  intros Hwf Hn. unfold circlebuf_pop_front.
  assert (E : circlebuf_peek_front cb dst n =
              Some (if dst then firstn (Z.to_nat n) (contents cb) else [])).
  { destruct dst; [now apply peek_front_spec | apply peek_null; lia]. }
  rewrite E. cbn [bind]. clear E.
  assert (Hc : len (contents cb) = size cb) by (apply len_contents; lia).
  destruct cb as [d s st e c]. unfold wf in Hwf. fields.
  destruct Hwf as (Hlen & Hcap & Hs & H0 & Hpos).
  unwrap.
  assert (Hext : forall cb', size cb' = s - n ->
    (forall i, 0 <= i < s - n ->
       phys cb' i = phys (mkcb d s st e c) (n + i)) ->
    data cb' = d ->
    contents cb' = skipn (Z.to_nat n) (contents (mkcb d s st e c))).
  { intros cb' Hs' Hp Hd. apply load_ext.
    - rewrite len_skipn, len_contents by lia. lia.
    - intros i Hi. rewrite len_contents in Hi by lia.
      rewrite load_skipn, !load_contents by (fields; lia).
      unfold logical. rewrite Hd, Hp by lia. reflexivity. }
  destruct (Z.eqb_spec (s - n) 0) as [Hz | Hz].
  - eexists. split; [reflexivity |]. splits.
    + unfold wf. fields. splits; lia.
    + apply Hext; fields; auto. intros; lia.
    + reflexivity.
    + reflexivity.
  - assert (Hs0 : 0 < s) by lia. specialize (Hpos Hs0). unwrap.
    destruct (Z.leb_spec c (st + n)) as [Hw | Hw]; unwrap; fields.
    + eexists. split; [reflexivity |]. splits.
      * unfold wf. fields. splits; lia.
      * apply Hext; fields; auto. intros i Hi. unfold phys. fields. zbool; lia.
      * reflexivity.
      * reflexivity.
    + eexists. split; [reflexivity |]. splits.
      * unfold wf. fields. splits; lia.
      * apply Hext; fields; auto. intros i Hi. unfold phys. fields. zbool; lia.
      * reflexivity.
      * reflexivity.
Qed.

Lemma pop_back_spec cb dst n :
  wf cb -> 0 <= n <= size cb ->
  exists cb',
    circlebuf_pop_back cb dst n =
    Some (cb', if dst then skipn (Z.to_nat (size cb - n)) (contents cb) else []) /\
    wf cb' /\ contents cb' = firstn (Z.to_nat (size cb - n)) (contents cb) /\
    size cb' = size cb - n /\ capacity cb' = capacity cb.
Proof.
  intros Hwf Hn. unfold circlebuf_pop_back.
  assert (E : circlebuf_peek_back cb dst n =
              Some (if dst then skipn (Z.to_nat (size cb - n)) (contents cb) else [])).
  { destruct dst; [now apply peek_back_spec | apply peek_null; lia]. }
  rewrite E. cbn [bind]. clear E.
  assert (Hc : len (contents cb) = size cb) by (apply len_contents; lia).
  destruct cb as [d s st e c]. unfold wf in Hwf. fields.
  destruct Hwf as (Hlen & Hcap & Hs & H0 & Hpos).
  unwrap.
  assert (Hext : forall cb', size cb' = s - n ->
    (forall i, 0 <= i < s - n ->
       phys cb' i = phys (mkcb d s st e c) i) ->
    data cb' = d ->
    contents cb' = firstn (Z.to_nat (s - n)) (contents (mkcb d s st e c))).
  { intros cb' Hs' Hp Hd. apply load_ext.
    - rewrite len_firstn, len_contents by lia. lia.
    - intros i Hi. rewrite len_contents in Hi by lia.
      rewrite load_firstn, !load_contents by (fields; lia).
      unfold logical. rewrite Hd, Hp by lia. reflexivity. }
  destruct (Z.eqb_spec (s - n) 0) as [Hz | Hz].
  - eexists. split; [reflexivity |]. splits.
    + unfold wf. fields. splits; lia.
    + apply Hext; fields; auto. intros; lia.
    + reflexivity.
    + reflexivity.
  - assert (Hs0 : 0 < s) by lia. specialize (Hpos Hs0).
    destruct (Z.leb_spec e n) as [Hw | Hw]; unwrap; fields.
    + eexists. split; [reflexivity |]. splits.
      * unfold wf. fields. splits; lia.
      * apply Hext; fields; auto.
      * reflexivity.
      * reflexivity.
    + eexists. split; [reflexivity |]. splits.
      * unfold wf. fields. splits; lia.
      * apply Hext; fields; auto.
      * reflexivity.
      * reflexivity.
Qed.

(** *** circlebuf_data *)

Lemma phys_mod cb i :
  wf cb -> 0 <= i < size cb ->
  phys cb i = (start_pos cb + i) mod capacity cb /\ 0 <= phys cb i < capacity cb.
Proof.
  unfold wf, phys. intros (Hlen & Hcap & Hs & H0 & Hpos) Hi.
  assert (Hs0 : 0 < size cb) by lia. specialize (Hpos Hs0).
  destruct (Z.ltb_spec (start_pos cb + i) (capacity cb)).
  - rewrite Z.mod_small by lia. lia.
  - split; [| lia].
    apply (Z.mod_unique _ _ 1); lia.
Qed.

Lemma data_spec cb idx :
  wf cb -> 0 <= idx < size cb -> circlebuf_data cb idx = Some (phys cb idx).
Proof.
  intros Hwf Hi. unfold circlebuf_data, phys.
  unfold wf in Hwf. destruct Hwf as (Hlen & Hcap & Hs & H0 & Hpos).
  assert (Hs0 : 0 < size cb) by lia. specialize (Hpos Hs0).
  destruct (Z.leb_spec (size cb) idx); [lia |].
  unwrap. zbool; unwrap; reflexivity.
Qed.

(** *** circlebuf_place *)

Section Writes.

Variable uninit : Z -> byte.

Lemma place_inside cb position src :
  wf cb -> 0 <= position -> position + len src <= size cb ->
  exists cb',
    circlebuf_place uninit cb position src = Some cb' /\
    wf cb' /\ size cb' = size cb /\ capacity cb' = capacity cb /\
    (forall i, 0 <= i < size cb ->
       logical cb' i =
       if (position <=? i) && (i <? position + len src)
       then load src (i - position) else logical cb i).
Proof.
  intros Hwf Hp Hin. pose proof (len_nonneg src) as Hn.
  unfold circlebuf_place.
  destruct cb as [d s st e c]. unfold wf in Hwf. fields.
  destruct Hwf as (Hlen & Hcap & Hs & H0 & Hpos).
  remember (len src) as n eqn:En.
  unwrap. destruct (Z.ltb_spec s (position + n)); [lia |]. cbn [bind]. fields.
  assert (Hst : 0 <= st <= c /\ (0 < s -> st < c)) by lia.
  unwrap.
  set (p := if c <=? position + st then wrap (position + st - c) else position + st).
  assert (Hpv : 0 <= p <= c /\ (0 < s -> p < c) /\
                (p = position + st \/ p = position + st - c)).
  { unfold p. zbool; unwrap; lia. }
  clearbody p. unwrap.
  destruct (Z.ltb_spec c (p + n)) as [Hw | Hw].
  - unwrap. rewrite memcpy_ok by lia. cbn [bind].
    rewrite memcpy_ok by (rewrite ?len_overwrite; rewrite ?len_slice; lia).
    cbn [bind]. fields.
    eexists. split; [reflexivity |]. splits; try reflexivity.
    + unfold wf. fields. splits; try lia. len_solve.
    + intros i Hi. unfold logical, phys. fields.
      zbool; loads.
  - rewrite memcpy_ok by lia. cbn [bind]. fields.
    eexists. split; [reflexivity |]. splits; try reflexivity.
    + unfold wf. fields. splits; try lia. len_solve.
    + intros i Hi. unfold logical, phys. fields.
      rewrite En, slice_all, <- En.
      zbool; rewrite load_overwrite by lia; rewrite <- En; zbool;
        try reflexivity; f_equal; lia.
Qed.


Lemma load_zeros n i : load (zeros n) i = x00.
Proof. apply load_repeat. Qed.

Lemma place_spec cb position src :
  wf cb -> 0 <= position -> alloc_ok cb (position + len src) ->
  exists cb',
    circlebuf_place uninit cb position src = Some cb' /\
    wf cb' /\
    size cb' = Z.max (size cb) (position + len src) /\
    capacity cb' = grown_capacity cb (position + len src) /\
    (forall i, 0 <= i < size cb' ->
       logical cb' i =
       if (position <=? i) && (i <? position + len src)
       then load src (i - position)
       else if i <? size cb then logical cb i else x00).
Proof.
  intros Hwf Hp Hok. pose proof (len_nonneg src) as Hn.
  pose proof (alloc_ok_bound _ _ Hwf Hok) as Hb.
  assert (Hs : 0 <= size cb <= capacity cb) by (unfold wf in Hwf; lia).
  destruct (Z.ltb_spec (size cb) (position + len src)) as [Hgrow | Hfit].
  - destruct (upsize_spec uninit cb (position + len src) Hwf) as
      (cb1 & E & Hwf1 & Hc1 & Hs1 & Hcap1); [lia | exact Hok |].
    destruct (place_inside cb1 position src Hwf1 Hp) as
      (cb' & E' & Hwf' & Hs' & Hcap' & Hl'); [lia |].
    exists cb'. splits; auto; try lia.
    + unfold circlebuf_place in *.
      rewrite (wrap_small (position + len src)) in *
        by (unfold SIZE_MAX, PTRDIFF_MAX in *; lia).
      destruct (Z.ltb_spec (size cb) (position + len src)); [| lia].
      rewrite E. cbn [bind].
      destruct (Z.ltb_spec (size cb1) (position + len src)); [lia |].
      exact E'.
    + intros i Hi. rewrite Hl' by lia.
      destruct ((position <=? i) && (i <? position + len src)); [reflexivity |].
      rewrite <- load_contents, Hc1, load_app, len_contents by lia.
      destruct (Z.ltb_spec i (size cb)).
      * apply load_contents. lia.
      * apply load_zeros.
  - destruct (place_inside cb position src Hwf Hp) as
      (cb' & E' & Hwf' & Hs' & Hcap' & Hl'); [lia |].
    exists cb'. splits; auto; try lia.
    + unfold grown_capacity.
      destruct (Z.leb_spec (position + len src) (capacity cb)); lia.
    + intros i Hi. rewrite Hl' by lia.
      destruct ((position <=? i) && (i <? position + len src)); [reflexivity |].
      zbool. reflexivity.
Qed.


(** *** When the allocation cannot be served *)

Lemma alloc_ok_cases cb s :
  alloc_ok cb s \/ (capacity cb < s /\ PTRDIFF_MAX < Z.max (2 * capacity cb) s).
Proof. unfold alloc_ok. lia. Qed.

Lemma alloc_ok_small cb s : 0 <= s -> 2 * s <= PTRDIFF_MAX -> alloc_ok cb s.
Proof. unfold alloc_ok. lia. Qed.

Lemma ensure_capacity_none cb s :
  wf cb -> capacity cb < s -> PTRDIFF_MAX < Z.max (2 * capacity cb) s ->
  circlebuf_ensure_capacity uninit (set_size cb s) = None.
Proof.
  intros Hwf Hs Hmax. unfold circlebuf_ensure_capacity. fields.
  destruct (Z.leb_spec s (capacity cb)); [lia |].
  assert (Hc : 0 <= capacity cb <= PTRDIFF_MAX) by (unfold wf in Hwf; lia).
  replace (capacity cb * 2) with (2 * capacity cb) by lia. unwrap.
  unfold brealloc.
  destruct (Z.ltb_spec (2 * capacity cb) s);
    match goal with |- context [?a <=? PTRDIFF_MAX] =>
      destruct (Z.leb_spec a PTRDIFF_MAX); [lia | reflexivity] end.
Qed.

Lemma ensure_capacity_alloc cb s cb' :
  wf cb -> circlebuf_ensure_capacity uninit (set_size cb s) = Some cb' ->
  alloc_ok cb s.
Proof.
  intros Hwf E. destruct (alloc_ok_cases cb s) as [H | [H1 H2]]; [exact H |].
  rewrite ensure_capacity_none in E by assumption. discriminate.
Qed.

Lemma reserve_none cb c :
  capacity cb < c -> PTRDIFF_MAX < c -> circlebuf_reserve uninit cb c = None.
Proof.
  intros. unfold circlebuf_reserve, brealloc.
  destruct (Z.leb_spec c (capacity cb)); [lia |].
  destruct (Z.leb_spec c PTRDIFF_MAX); [lia | reflexivity].
Qed.

Lemma upsize_none cb s :
  wf cb -> capacity cb < s -> PTRDIFF_MAX < Z.max (2 * capacity cb) s ->
  circlebuf_upsize uninit cb s = None.
Proof.
  intros Hwf Hs Hmax. unfold circlebuf_upsize.
  assert (size cb <= capacity cb) by (unfold wf in Hwf; lia).
  destruct (Z.leb_spec s (size cb)); [lia |].
  now rewrite ensure_capacity_none.
Qed.

Lemma push_none cb n :
  wf cb -> 0 <= n <= PTRDIFF_MAX -> ~ alloc_ok cb (size cb + n) ->
  circlebuf_ensure_capacity uninit (set_size cb (wrap (size cb + n))) = None.
Proof.
  intros Hwf Hn Hno.
  assert (0 <= size cb <= PTRDIFF_MAX) by (unfold wf in Hwf; lia).
  unwrap. destruct (alloc_ok_cases cb (size cb + n)) as [H1 | [H1 H2]];
    [contradiction |].
  now apply ensure_capacity_none.
Qed.


(** *** Growth *)

(** C3 (as amended). When [circlebuf_ensure_capacity] grows the buffer (the
    size [s] exceeds the old capacity) the new capacity is the larger of
    twice the old capacity and [s]; when [circlebuf_reserve] grows it, the new
    capacity is exactly the capacity asked for. In both cases the bytes
    already stored (the old [size] bytes from [start_pos], read circularly)
    are the same afterwards, whether or not they wrapped around the end of
    the old block; and both calls return whenever the allocation can be
    served. *)
Theorem growth_preserves_content cb :
  wf cb ->
  (forall s, size cb <= s -> capacity cb < s ->
     (Z.max (2 * capacity cb) s <= PTRDIFF_MAX ->
      exists cb', circlebuf_ensure_capacity uninit (set_size cb s) = Some cb') /\
     (forall cb',
        circlebuf_ensure_capacity uninit (set_size cb s) = Some cb' ->
        capacity cb' = Z.max (2 * capacity cb) s /\
        size cb' = s /\
        read_circular cb' (size cb) = contents cb)) /\
  (forall c, capacity cb < c ->
     (c <= PTRDIFF_MAX -> exists cb', circlebuf_reserve uninit cb c = Some cb') /\
     (forall cb',
        circlebuf_reserve uninit cb c = Some cb' ->
        capacity cb' = c /\ size cb' = size cb /\ contents cb' = contents cb)).
Proof.
  intros Hwf. split.
  - intros s Hs Hgrow. split.
    + intros Hmax.
      destruct (ensure_capacity_spec uninit cb s Hwf Hs) as (cb1 & E & _).
      { unfold alloc_ok. lia. }
      eauto.
    + intros cb' E'.
      pose proof (ensure_capacity_alloc cb s cb' Hwf E') as Hok.
      destruct (ensure_capacity_spec uninit cb s Hwf Hs Hok)
        as (cb1 & E & Hwf1 & Hs1 & He1 & Hc1 & Hroom & Hl1).
      rewrite E in E'. injection E' as <-. fields.
      splits.
      * rewrite Hc1. unfold grown_capacity.
        destruct (Z.leb_spec s (capacity cb)); lia.
      * reflexivity.
      * apply read_circular_ext. intros i Hi. rewrite <- Hl1 by lia. reflexivity.
  - intros c Hgrow. split.
    + intros Hmax.
      destruct (reserve_spec uninit cb c Hwf) as (cb1 & E & _); [lia |]. eauto.
    + intros cb' E'.
      assert (Hok : c <= PTRDIFF_MAX).
      { destruct (Z.le_gt_cases c PTRDIFF_MAX) as [H | H]; [exact H |].
        rewrite reserve_none in E' by lia. discriminate. }
      destruct (reserve_spec uninit cb c Hwf) as
        (cb1 & E & Hwf1 & Hs1 & He1 & Hc1 & Hl1); [lia |].
      rewrite E in E'. injection E' as <-.
      splits; [lia | exact Hs1 |].
      apply contents_ext; [exact Hs1 |]. intros i Hi. apply Hl1. lia.
Qed.

End Writes.

(** *** circlebuf_data *)

(** C9. [circlebuf_data cb idx] is [NULL] exactly when [idx >= size];
    otherwise it is the pointer [data + (start_pos + idx) mod capacity],
    where the byte at logical position [idx] of the content is stored. *)
Theorem data_correct cb idx :
  (circlebuf_data cb idx = None <-> size cb <= idx) /\
  (wf cb -> 0 <= idx < size cb ->
   circlebuf_data cb idx = Some ((start_pos cb + idx) mod capacity cb) /\
   load (data cb) ((start_pos cb + idx) mod capacity cb) =
   load (contents cb) idx).
Proof.
  split.
  - unfold circlebuf_data. destruct (Z.leb_spec (size cb) idx).
    + tauto.
    + split; [| lia].
      destruct (capacity cb <=? wrap (start_pos cb + idx)); discriminate.
  - intros Hwf Hi. destruct (phys_mod cb idx Hwf Hi) as [Hm _].
    rewrite <- Hm. split.
    + now apply data_spec.
    + rewrite load_contents by lia. reflexivity.
Qed.



(** *** The reference queue is first-in first-out at the front and last-in
    first-out at the back *)

Lemma front_app a b : front (len a) (a ++ b) = a.
Proof.
  unfold front, len. rewrite Nat2Z.id, firstn_app, Nat.sub_diag, firstn_all.
  cbn. apply app_nil_r.
Qed.

Lemma drop_front_app a b : drop_front (len a) (a ++ b) = b.
Proof.
  unfold drop_front, len. rewrite Nat2Z.id, skipn_app, Nat.sub_diag, skipn_all.
  reflexivity.
Qed.

Lemma back_app a b : back (len b) (a ++ b) = b.
Proof.
  unfold back. rewrite len_app. replace (len a + len b - len b) with (len a) by lia.
  apply drop_front_app.
Qed.

Lemma drop_back_app a b : drop_back (len b) (a ++ b) = a.
Proof.
  unfold drop_back. rewrite len_app.
  replace (len a + len b - len b) with (len a) by lia. apply front_app.
Qed.

Lemma within_app_l a b : within (len a) (a ++ b) = true.
Proof.
  unfold within. rewrite len_app.
  pose proof (len_nonneg a). pose proof (len_nonneg b).
  apply andb_true_iff. split; apply Z.leb_le; lia.
Qed.

Lemma within_app_r a b : within (len b) (a ++ b) = true.
Proof.
  unfold within. rewrite len_app.
  pose proof (len_nonneg a). pose proof (len_nonneg b).
  apply andb_true_iff. split; apply Z.leb_le; lia.
Qed.

Lemma within_all q : within (len q) q = true.
Proof.
  unfold within. pose proof (len_nonneg q).
  apply andb_true_iff. split; apply Z.leb_le; lia.
Qed.

Lemma front_all q : front (len q) q = q.
Proof. unfold front, len. rewrite Nat2Z.id. apply firstn_all. Qed.

Lemma drop_front_all q : drop_front (len q) q = [].
Proof. unfold drop_front, len. rewrite Nat2Z.id. apply skipn_all. Qed.

Lemma back_all q : back (len q) q = q.
Proof. unfold back. now rewrite Z.sub_diag. Qed.

Lemma drop_back_all q : drop_back (len q) q = [].
Proof. unfold drop_back. now rewrite Z.sub_diag. Qed.

(** Two blocks pushed at the back come out of the front in the order they
    went in. *)
Lemma queue_fifo a b :
  queue_run [PushBack a; PushBack b;
             PopFront true (len a); PopFront true (len b)] [] =
  Some ([], [[]; []; a; b]).
Proof.
  cbn [queue_run queue_exec bind fst snd app].
  rewrite within_app_l, front_app, drop_front_app. cbn [bind fst snd].
  rewrite within_all, front_all, drop_front_all. reflexivity.
Qed.

(** Two blocks pushed at the back come out of the back in the reverse
    order, each block in the order it is stored. *)
Lemma queue_lifo a b :
  queue_run [PushBack a; PushBack b;
             PopBack true (len b); PopBack true (len a)] [] =
  Some ([], [[]; []; b; a]).
Proof.
  cbn [queue_run queue_exec bind fst snd app].
  rewrite within_app_r, back_app, drop_back_app. cbn [bind fst snd].
  rewrite within_all, back_all, drop_back_all. reflexivity.
Qed.

(** *** circlebuf_place *)

Section Claims.

Variable uninit : Z -> byte.

Lemma place_none cb position src :
  wf cb -> 0 <= position -> position + len src <= SIZE_MAX ->
  ~ alloc_ok cb (position + len src) ->
  circlebuf_place uninit cb position src = None.
Proof.
  intros Hwf Hp Hmax Hno. pose proof (len_nonneg src).
  destruct (alloc_ok_cases cb (position + len src)) as [H1 | [H1 H2]];
    [contradiction |].
  assert (size cb <= capacity cb) by (unfold wf in Hwf; lia).
  unfold circlebuf_place. unwrap.
  destruct (Z.ltb_spec (size cb) (position + len src)); [| lia].
  now rewrite upsize_none.
Qed.

(** C6 (as amended). For a position and a block of [n] bytes whose end
    [position + n] does not overflow [size_t], [circlebuf_place] returns
    whenever the allocation it may need can be served, and when it returns:
    the size is [max (old size) (position + n)]; the bytes at logical
    positions [position .. position + n) are the block; every byte stored
    before, and outside that range, is unchanged; and the bytes between the
    old size and [position] are zero. *)
Theorem place_correct cb position src :
  wf cb -> 0 <= position -> position + len src <= SIZE_MAX ->
  (alloc_ok cb (position + len src) ->
   exists cb', circlebuf_place uninit cb position src = Some cb') /\
  (forall cb',
     circlebuf_place uninit cb position src = Some cb' ->
     wf cb' /\
     size cb' = Z.max (size cb) (position + len src) /\
     (forall i, position <= i < position + len src ->
        load (contents cb') i = load src (i - position)) /\
     (forall i, 0 <= i < size cb -> ~ position <= i < position + len src ->
        load (contents cb') i = load (contents cb) i) /\
     (forall i, size cb <= i < position -> load (contents cb') i = x00)).
Proof.
  intros Hwf Hp Hmax. pose proof (len_nonneg src) as Hn.
  assert (Hs : 0 <= size cb) by (unfold wf in Hwf; lia).
  split.
  - intros Hok.
    destruct (place_spec uninit cb position src Hwf Hp Hok) as (cb' & E & _).
    eauto.
  - intros cb' E'.
    assert (Hok : alloc_ok cb (position + len src)).
    { destruct (alloc_ok_cases cb (position + len src)) as [H | H]; [exact H |].
      rewrite place_none in E'; try assumption; [discriminate |].
      unfold alloc_ok. lia. }
    destruct (place_spec uninit cb position src Hwf Hp Hok)
      as (cb1 & E & Hwf1 & Hs1 & Hc1 & Hl1).
    rewrite E in E'. injection E' as <-.
    splits; auto.
    + intros i Hi. rewrite load_contents, Hl1 by lia. zbool; reflexivity.
    + intros i Hi Hout. rewrite !load_contents, Hl1 by lia.
      zbool; reflexivity.
    + intros i Hi. rewrite load_contents, Hl1 by lia. zbool; reflexivity.
Qed.

(** *** Sequences of queue operations *)

Lemma len_front_contents cb : wf cb -> len (contents cb) = size cb.
Proof. intros Hwf. apply len_contents. unfold wf in Hwf. lia. Qed.

Lemma within_spec n q : within n q = true <-> 0 <= n <= len q.
Proof. unfold within. rewrite andb_true_iff, !Z.leb_le. tauto. Qed.

(** One call of the buffer does what the byte queue does. *)
Lemma exec_refines o cb q out :
  wf cb -> 2 * (size cb + pushed [o]) <= PTRDIFF_MAX ->
  queue_exec o (contents cb) = Some (q, out) ->
  exists cb',
    exec uninit o cb = Some (cb', out) /\
    wf cb' /\ contents cb' = q /\
    size cb' = size cb + pushed [o] - popped [o] /\
    capacity cb <= capacity cb'.
Proof.
  intros Hwf Hb Hq. pose proof (len_front_contents cb Hwf) as Hlen.
  assert (Hs : 0 <= size cb <= capacity cb) by (unfold wf in Hwf; lia).
  destruct o as [src | src | dst n | dst n | dst n | dst n];
    cbn [queue_exec exec pushed popped] in *.
  - injection Hq as <- <-. pose proof (len_nonneg src).
    destruct (push_back_spec uninit cb src Hwf) as (cb' & E & Hwf' & Hc & Hs' & Hcap).
    { apply alloc_ok_small; lia. }
    rewrite E. cbn [bind]. exists cb'. splits; auto; try lia.
    rewrite Hcap. unfold grown_capacity. zbool; lia.
  - injection Hq as <- <-. pose proof (len_nonneg src).
    destruct (push_front_spec uninit cb src Hwf) as (cb' & E & Hwf' & Hc & Hs' & Hcap).
    { apply alloc_ok_small; lia. }
    rewrite E. cbn [bind]. exists cb'. splits; auto; try lia.
    rewrite Hcap. unfold grown_capacity. zbool; lia.
  - destruct (within n (contents cb)) eqn:Hw; [| discriminate].
    apply within_spec in Hw. injection Hq as <- <-.
    exists cb. splits; auto; try lia.
    destruct dst.
    + rewrite peek_front_spec by (auto; lia). reflexivity.
    + destruct (peek_null cb n) as [-> _]; [lia | reflexivity].
  - destruct (within n (contents cb)) eqn:Hw; [| discriminate].
    apply within_spec in Hw. injection Hq as <- <-.
    exists cb. splits; auto; try lia.
    destruct dst.
    + rewrite peek_back_spec by (auto; lia). unfold back. now rewrite Hlen.
    + destruct (peek_null cb n) as [_ ->]; [lia | reflexivity].
  - destruct (within n (contents cb)) eqn:Hw; [| discriminate].
    apply within_spec in Hw. injection Hq as <- <-.
    destruct (pop_front_spec cb dst n Hwf) as (cb' & E & Hwf' & Hc & Hs' & Hcap);
      [lia |].
    exists cb'. splits; auto; lia.
  - destruct (within n (contents cb)) eqn:Hw; [| discriminate].
    apply within_spec in Hw. injection Hq as <- <-.
    destruct (pop_back_spec cb dst n Hwf) as (cb' & E & Hwf' & Hc & Hs' & Hcap);
      [lia |].
    exists cb'. unfold back, drop_back. rewrite Hlen. splits; auto; lia.
Qed.

Lemma pushed_nonneg ops : 0 <= pushed ops.
Proof.
  induction ops as [| [src | src | | | |] ops IH]; cbn [pushed];
    try pose proof (len_nonneg src); lia.
Qed.

Lemma pushed_cons o ops : pushed (o :: ops) = pushed [o] + pushed ops.
Proof. destruct o; cbn [pushed]; lia. Qed.

Lemma popped_cons o ops : popped (o :: ops) = popped [o] + popped ops.
Proof. destruct o; cbn [popped]; lia. Qed.

Lemma queue_exec_popped o q q' out :
  queue_exec o q = Some (q', out) -> 0 <= popped [o].
Proof.
  destruct o as [src | src | dst n | dst n | dst n | dst n];
    cbn [queue_exec popped]; intros H; try lia;
    destruct (within n q) eqn:Hw; try discriminate;
    apply within_spec in Hw; lia.
Qed.

(** C1. Take any sequence of pushes, peeks and pops in which every peek and
    pop asks for at most the bytes stored at that point (the byte queue run
    is defined), on a buffer that has room in the address space for the bytes
    pushed. Then the buffer run returns, every peek and pop hands back exactly
    the bytes the queue does (the front calls the oldest bytes first, the back
    calls the newest: [queue_fifo], [queue_lifo]), the content at the end is
    the queue's, and the [size]
    field is the old size plus the bytes pushed minus the bytes popped. *)
Theorem queue_refinement ops cb q outs :
  wf cb ->
  2 * (size cb + pushed ops) <= PTRDIFF_MAX ->
  queue_run ops (contents cb) = Some (q, outs) ->
  exists cb',
    run uninit ops cb = Some (cb', outs) /\
    wf cb' /\ contents cb' = q /\
    size cb' = size cb + pushed ops - popped ops /\
    capacity cb <= capacity cb'.
Proof.
  revert cb q outs.
  induction ops as [| o ops IH]; intros cb q outs Hwf Hb Hq.
  - cbn in *. injection Hq as <- <-. exists cb. splits; auto; lia.
  - cbn [queue_run run] in *.
    destruct (queue_exec o (contents cb)) as [[q1 out1] |] eqn:E1;
      [| discriminate].
    cbn [bind fst snd] in Hq.
    destruct (queue_run ops q1) as [[q2 outs2] |] eqn:E2; [| discriminate].
    cbn [bind fst snd] in Hq. injection Hq as <- <-.
    rewrite pushed_cons in Hb. rewrite pushed_cons, popped_cons.
    pose proof (pushed_nonneg ops) as Hp.
    pose proof (pushed_nonneg [o]) as Hp1.
    pose proof (queue_exec_popped _ _ _ _ E1) as Hpop.
    destruct (exec_refines o cb q1 out1 Hwf) as
      (cb1 & X1 & Hwf1 & Hc1 & Hs1 & Hcap1); [lia | exact E1 |].
    rewrite X1. cbn [bind fst snd]. subst q1.
    destruct (IH cb1 q2 outs2 Hwf1) as (cb2 & X2 & Hwf2 & Hc2 & Hs2 & Hcap2);
      [lia | exact E2 |].
    rewrite X2. cbn [bind fst snd].
    exists cb2. splits; auto; lia.
Qed.

(** *** Every operation keeps the invariant *)

Lemma wf_invariant cb : wf cb -> invariant cb.
Proof. unfold wf, invariant. tauto. Qed.

Lemma memwrite_len m off bs m' : memwrite m off bs = Some m' -> len m' = len m.
Proof.
  unfold memwrite. destruct (Z.leb_spec 0 off); [| discriminate].
  destruct (Z.leb_spec (off + len bs) (len m)); [| discriminate].
  cbn [andb]. intros [= <-]. apply len_overwrite; lia.
Qed.

Lemma memcpy_len dst doff src soff n d' :
  memcpy dst doff src soff n = Some d' -> len d' = len dst.
Proof.
  unfold memcpy. destruct (memread src soff n); [| discriminate]. cbn [bind].
  apply memwrite_len.
Qed.

Lemma wf_set_data cb d : wf cb -> len d = len (data cb) -> wf (set_data cb d).
Proof. unfold wf. fields. intros H E. rewrite E. exact H. Qed.

Lemma upsize_keeps cb s cb' :
  wf cb -> circlebuf_upsize uninit cb s = Some cb' ->
  wf cb' /\ capacity cb <= capacity cb'.
Proof.
  intros Hwf E.
  assert (Hs : 0 <= size cb <= capacity cb) by (unfold wf in Hwf; lia).
  destruct (Z.le_gt_cases s (size cb)) as [Hle | Hgt].
  - unfold circlebuf_upsize in E. destruct (Z.leb_spec s (size cb)); [| lia].
    injection E as <-. split; [exact Hwf | lia].
  - destruct (alloc_ok_cases cb s) as [Hok | [H1 H2]].
    + destruct (upsize_spec uninit cb s Hwf) as (cb1 & E1 & Hwf1 & _ & _ & Hcap);
        [lia | exact Hok |].
      rewrite E1 in E. injection E as <-. split; [exact Hwf1 |].
      rewrite Hcap. unfold grown_capacity. zbool; lia.
    + rewrite upsize_none in E by assumption. discriminate.
Qed.

Lemma place_keeps cb position src cb' :
  wf cb -> circlebuf_place uninit cb position src = Some cb' ->
  wf cb' /\ capacity cb <= capacity cb'.
Proof.
  intros Hwf E. unfold circlebuf_place in E.
  match type of E with
  | bind ?m _ = _ => destruct m as [cb1 |] eqn:E1; [| discriminate]
  end.
  cbn [bind] in E.
  assert (H1 : wf cb1 /\ capacity cb <= capacity cb1).
  { destruct (size cb <? wrap (position + len src)).
    - exact (upsize_keeps cb _ cb1 Hwf E1).
    - injection E1 as <-. split; [exact Hwf | lia]. }
  destruct H1 as [Hwf1 Hcap1]. clear E1.
  match type of E with
  | (if ?c then _ else _) = _ => destruct c
  end.
  - match type of E with
    | bind ?m _ = _ => destruct m as [d1 |] eqn:M1; [| discriminate]
    end.
    cbn [bind] in E.
    match type of E with
    | bind ?m _ = _ => destruct m as [d2 |] eqn:M2; [| discriminate]
    end.
    cbn [bind] in E. injection E as <-.
    apply memcpy_len in M1, M2. split; [| exact Hcap1].
    apply wf_set_data; [exact Hwf1 | congruence].
  - match type of E with
    | bind ?m _ = _ => destruct m as [d1 |] eqn:M1; [| discriminate]
    end.
    cbn [bind] in E. injection E as <-.
    apply memcpy_len in M1. split; [| exact Hcap1].
    apply wf_set_data; [exact Hwf1 | congruence].
Qed.

Lemma push_back_keeps cb src cb' :
  wf cb -> len src <= PTRDIFF_MAX ->
  circlebuf_push_back uninit cb src = Some cb' ->
  wf cb' /\ capacity cb <= capacity cb'.
Proof.
  intros Hwf Hn E. pose proof (len_nonneg src).
  assert (Hs : 0 <= size cb <= capacity cb) by (unfold wf in Hwf; lia).
  destruct (alloc_ok_cases cb (size cb + len src)) as [Hok | Hno].
  - destruct (push_back_spec uninit cb src Hwf Hok) as (cb1 & E1 & Hwf1 & _ & _ & Hcap).
    rewrite E1 in E. injection E as <-. split; [exact Hwf1 |].
    rewrite Hcap. unfold grown_capacity. zbool; lia.
  - unfold circlebuf_push_back in E.
    rewrite push_none in E; [discriminate | exact Hwf | lia |].
    unfold alloc_ok. lia.
Qed.

Lemma push_front_keeps cb src cb' :
  wf cb -> len src <= PTRDIFF_MAX ->
  circlebuf_push_front uninit cb src = Some cb' ->
  wf cb' /\ capacity cb <= capacity cb'.
Proof.
  intros Hwf Hn E. pose proof (len_nonneg src).
  assert (Hs : 0 <= size cb <= capacity cb) by (unfold wf in Hwf; lia).
  destruct (alloc_ok_cases cb (size cb + len src)) as [Hok | Hno].
  - destruct (push_front_spec uninit cb src Hwf Hok) as (cb1 & E1 & Hwf1 & _ & _ & Hcap).
    rewrite E1 in E. injection E as <-. split; [exact Hwf1 |].
    rewrite Hcap. unfold grown_capacity. zbool; lia.
  - unfold circlebuf_push_front in E.
    rewrite push_none in E; [discriminate | exact Hwf | lia |].
    unfold alloc_ok. lia.
Qed.

Lemma push_back_zero_keeps cb n cb' :
  wf cb -> 0 <= n <= PTRDIFF_MAX ->
  circlebuf_push_back_zero uninit cb n = Some cb' ->
  wf cb' /\ capacity cb <= capacity cb'.
Proof.
  intros Hwf Hn E.
  destruct (alloc_ok_cases cb (size cb + n)) as [Hok | Hno].
  - rewrite push_back_zero_eq in E by (auto; lia).
    apply push_back_keeps in E; auto. rewrite len_zeros; lia.
  - unfold circlebuf_push_back_zero in E.
    rewrite push_none in E; [discriminate | exact Hwf | lia |].
    unfold alloc_ok. lia.
Qed.

Lemma push_front_zero_keeps cb n cb' :
  wf cb -> 0 <= n <= PTRDIFF_MAX ->
  circlebuf_push_front_zero uninit cb n = Some cb' ->
  wf cb' /\ capacity cb <= capacity cb'.
Proof.
  intros Hwf Hn E.
  destruct (alloc_ok_cases cb (size cb + n)) as [Hok | Hno].
  - rewrite push_front_zero_eq in E by (auto; lia).
    apply push_front_keeps in E; auto. rewrite len_zeros; lia.
  - unfold circlebuf_push_front_zero in E.
    rewrite push_none in E; [discriminate | exact Hwf | lia |].
    unfold alloc_ok. lia.
Qed.

Lemma reserve_keeps cb c cb' :
  wf cb -> circlebuf_reserve uninit cb c = Some cb' ->
  wf cb' /\ capacity cb <= capacity cb'.
Proof.
  intros Hwf E.
  destruct (Z.le_gt_cases c (capacity cb)) as [H1 | H1];
    [| destruct (Z.le_gt_cases c PTRDIFF_MAX) as [H2 | H2]].
  - destruct (reserve_spec uninit cb c Hwf) as (cb1 & E1 & Hwf1 & _ & _ & Hcap & _);
      [lia |].
    rewrite E1 in E. injection E as <-. split; [exact Hwf1 | lia].
  - destruct (reserve_spec uninit cb c Hwf) as (cb1 & E1 & Hwf1 & _ & _ & Hcap & _);
      [lia |].
    rewrite E1 in E. injection E as <-. split; [exact Hwf1 | lia].
  - rewrite reserve_none in E by lia. discriminate.
Qed.

Lemma pop_front_keeps cb dst n cb' out :
  wf cb -> 0 <= n -> circlebuf_pop_front cb dst n = Some (cb', out) ->
  wf cb' /\ capacity cb <= capacity cb'.
Proof.
  intros Hwf Hn E. destruct (Z.le_gt_cases n (size cb)) as [Hle | Hgt].
  - destruct (pop_front_spec cb dst n Hwf) as (cb1 & E1 & Hwf1 & _ & _ & Hcap);
      [lia |].
    rewrite E1 in E. injection E as <- _. split; [exact Hwf1 | lia].
  - unfold circlebuf_pop_front, circlebuf_peek_front in E.
    destruct (Z.leb_spec n (size cb)); [lia | discriminate].
Qed.

Lemma pop_back_keeps cb dst n cb' out :
  wf cb -> 0 <= n -> circlebuf_pop_back cb dst n = Some (cb', out) ->
  wf cb' /\ capacity cb <= capacity cb'.
Proof.
  intros Hwf Hn E. destruct (Z.le_gt_cases n (size cb)) as [Hle | Hgt].
  - destruct (pop_back_spec cb dst n Hwf) as (cb1 & E1 & Hwf1 & _ & _ & Hcap);
      [lia |].
    rewrite E1 in E. injection E as <- _. split; [exact Hwf1 | lia].
  - unfold circlebuf_pop_back, circlebuf_peek_back in E.
    destruct (Z.leb_spec n (size cb)); [lia | discriminate].
Qed.

Lemma wf_zeroed : wf zeroed.
Proof. unfold wf, zeroed, PTRDIFF_MAX. cbn. lia. Qed.

(** C2 (as amended). From a well-formed buffer, every operation called with
    arguments of its type that returns (the peeks and pops within the bytes
    stored, the allocation served) leaves a well-formed buffer, so
    [size <= capacity] and an empty buffer has [start_pos = end_pos = 0];
    and every operation other than [circlebuf_init] and [circlebuf_free],
    which reset the struct, leaves [capacity] at least what it was. *)
Theorem step_keeps_invariant c cb cb' :
  wf cb -> valid_call c -> step uninit c cb = Some cb' ->
  wf cb' /\ invariant cb' /\ (resets c = false -> capacity cb <= capacity cb').
Proof.
  intros Hwf Hv E.
  enough (H : wf cb' /\ (resets c = false -> capacity cb <= capacity cb')).
  { destruct H as [H1 H2]. split; [exact H1 |]. split; [| exact H2].
    now apply wf_invariant. }
  destruct c as [| | c | s | position src | n | n | idx | o];
    cbn [step resets valid_call] in *.
  - injection E as <-. split; [exact wf_zeroed | discriminate].
  - injection E as <-. split; [exact wf_zeroed | discriminate].
  - apply reserve_keeps in E; tauto.
  - apply upsize_keeps in E; tauto.
  - apply place_keeps in E; tauto.
  - apply push_back_zero_keeps in E; tauto.
  - apply push_front_zero_keeps in E; tauto.
  - injection E as <-. split; [exact Hwf | lia].
  - destruct (exec uninit o cb) as [[cb1 out] |] eqn:X; [| discriminate].
    cbn [bind fst] in E. injection E as <-.
    destruct o as [src | src | dst n | dst n | dst n | dst n];
      cbn [exec valid_queue_op] in *.
    + destruct (circlebuf_push_back uninit cb src) as [cb2 |] eqn:P;
        [| discriminate].
      cbn [bind] in X. injection X as <- _.
      apply push_back_keeps in P; tauto.
    + destruct (circlebuf_push_front uninit cb src) as [cb2 |] eqn:P;
        [| discriminate].
      cbn [bind] in X. injection X as <- _.
      apply push_front_keeps in P; tauto.
    + destruct (circlebuf_peek_front cb dst n); [| discriminate].
      cbn [bind] in X. injection X as <- _. split; [exact Hwf | lia].
    + destruct (circlebuf_peek_back cb dst n); [| discriminate].
      cbn [bind] in X. injection X as <- _. split; [exact Hwf | lia].
    + apply pop_front_keeps in X; [tauto | exact Hwf | lia].
    + apply pop_back_keeps in X; [tauto | exact Hwf | lia].
Qed.

End Claims.

(** *** Concrete runs *)
Lemma wf_cb_wrapped : wf cb_wrapped.
Proof. unfold wf, cb_wrapped, PTRDIFF_MAX. cbn. lia. Qed.

Lemma growth_preserves_content_witness :
  capacity cb_wrapped < 12 /\
  exists cb',
    circlebuf_ensure_capacity ff (set_size cb_wrapped 12) = Some cb' /\
    capacity cb' = 16 /\ read_circular cb' 4 = ["a"; "b"; "c"; "d"]%byte.
Proof.
  split; [cbn; lia |].
  destruct (growth_preserves_content ff cb_wrapped wf_cb_wrapped) as [H _].
  destruct (H 12) as [Hex Hprop]; [cbn; lia | cbn; lia |].
  destruct Hex as [cb' E]; [unfold PTRDIFF_MAX; cbn; lia |].
  exists cb'. destruct (Hprop cb' E) as (Hc & Hs & Hr).
  split; [exact E |]. split; [exact Hc | exact Hr].
Defined.

Lemma reserve_not_doubling :
  ~ (forall uninit cb c cb',
       wf cb -> capacity cb < c ->
       circlebuf_reserve uninit cb c = Some cb' ->
       capacity cb' = Z.max (2 * capacity cb) c).
Proof.
  intros H.
  specialize (H ff cb_wrapped 10 _ wf_cb_wrapped ltac:(cbn; lia) eq_refl).
  cbn in H. discriminate.
Qed.

Lemma data_correct_witness :
  circlebuf_data cb_wrapped 3 = Some 1 /\
  load (data cb_wrapped) 1 = "d"%byte.
Proof.
  destruct (data_correct cb_wrapped 3) as [_ H].
  destruct (H wf_cb_wrapped) as [E L]; [cbn; lia |].
  split; [exact E | exact L].
Defined.

Lemma place_correct_witness :
  exists cb',
    circlebuf_place ff cb_wrapped 6 ["x"; "y"]%byte = Some cb' /\
    size cb' = 8 /\
    contents cb' = ["a"; "b"; "c"; "d"; "000"; "000"; "x"; "y"]%byte.
Proof.
  destruct (place_correct ff cb_wrapped 6 ["x"; "y"]%byte wf_cb_wrapped)
    as [Hex Hprop]; [lia | unfold SIZE_MAX; cbn; lia |].
  destruct Hex as [cb' E]; [unfold alloc_ok; cbn; lia |].
  exists cb'. destruct (Hprop cb' E) as (_ & Hs & _).
  split; [exact E |]. split; [exact Hs |].
  cbn in E. injection E as <-. reflexivity.
Defined.

(** Where [position + n] overflows [size_t] the comparison with [size] sees
    the wrapped end: at position [SIZE_MAX] with two bytes the buffer is not
    grown, the bytes land at offsets 5 and 6 of the block, and the first byte
    stored (["a"], at offset 6) is overwritten. *)
Lemma place_position_overflow :
  ~ (forall uninit cb position src cb',
       wf cb -> 0 <= position <= SIZE_MAX ->
       circlebuf_place uninit cb position src = Some cb' ->
       size cb' = Z.max (size cb) (position + len src) /\
       (forall i, 0 <= i < size cb ->
          ~ position <= i < position + len src ->
          load (contents cb') i = load (contents cb) i)).
Proof.
  intros H.
  assert (E : circlebuf_place ff cb_wrapped SIZE_MAX ["x"; "y"]%byte =
              Some (mkcb ["c"; "d"; "-"; "-"; "-"; "x"; "y"; "b"]%byte
                      4 6 2 8)) by (vm_compute; reflexivity).
  destruct (H ff cb_wrapped SIZE_MAX ["x"; "y"]%byte _ wf_cb_wrapped
              ltac:(unfold SIZE_MAX; lia) E) as [_ Hb].
  specialize (Hb 0 ltac:(cbn; lia) ltac:(unfold SIZE_MAX; lia)).
  vm_compute in Hb. discriminate Hb.
Qed.

Lemma queue_refinement_witness :
  exists cb',
    run ff [PushBack ["a"; "b"; "c"]; PushBack ["d"; "e"]; PopFront true 2;
            PushFront ["z"]; PopBack true 2; PeekFront true 2]%byte zeroed =
    Some (cb', [[]; []; ["a"; "b"]; []; ["d"; "e"]; ["z"; "c"]]%byte) /\
    contents cb' = ["z"; "c"]%byte /\ size cb' = 2.
Proof.
  destruct (queue_refinement ff
              [PushBack ["a"; "b"; "c"]; PushBack ["d"; "e"]; PopFront true 2;
               PushFront ["z"]; PopBack true 2; PeekFront true 2]%byte
              zeroed ["z"; "c"]%byte
              [[]; []; ["a"; "b"]; []; ["d"; "e"]; ["z"; "c"]]%byte
              wf_zeroed)
    as (cb' & E & _ & Hc & Hs & _).
  - unfold PTRDIFF_MAX. cbn. lia.
  - reflexivity.
  - exists cb'. split; [exact E |]. split; [exact Hc | exact Hs].
Defined.

Lemma step_keeps_invariant_witness :
  exists cb',
    step ff (Queue (PushBack ["e"; "f"; "g"; "h"; "i"]%byte)) cb_wrapped =
    Some cb' /\
    invariant cb' /\ capacity cb_wrapped <= capacity cb'.
Proof.
  exists (mkcb ["c"; "d"; "e"; "f"; "g"; "h"; "i"; "b"; xff; xff; xff; xff;
                xff; xff; "a"; "b"]%byte 9 14 7 16).
  assert (E : step ff (Queue (PushBack ["e"; "f"; "g"; "h"; "i"]%byte))
                cb_wrapped =
              Some (mkcb ["c"; "d"; "e"; "f"; "g"; "h"; "i"; "b"; xff; xff;
                          xff; xff; xff; xff; "a"; "b"]%byte 9 14 7 16))
    by reflexivity.
  split; [exact E |].
  assert (V : valid_call (Queue (PushBack ["e"; "f"; "g"; "h"; "i"]%byte)))
    by (unfold PTRDIFF_MAX; cbn; lia).
  destruct (step_keeps_invariant ff _ _ _ wf_cb_wrapped V E) as (_ & Hi & Hc).
  split; [exact Hi | exact (Hc eq_refl)].
Defined.

Lemma free_drops_capacity :
  ~ (forall uninit c cb cb',
       wf cb -> valid_call c -> step uninit c cb = Some cb' ->
       capacity cb <= capacity cb').
Proof.
  intros H.
  specialize (H ff Free cb_wrapped zeroed wf_cb_wrapped I eq_refl).
  cbn in H. lia.
Qed.

End CircleBufFacts.

(** ** The helpers of WAVSource *)

Module WAVSourceFacts.
Import WAVSource.

(** *** get_audio_sync *)

Lemma MAX_TS_DELTA_value : MAX_TS_DELTA = 16000000000.
Proof. reflexivity. Qed.

Lemma audio_end_range w : 0 <= audio_end w <= SIZE_MAX.
Proof.
  unfold audio_end, wrap, SIZE_MAX, SIZE_MOD.
  pose proof (Z.mod_pos_bound (m_audio_ts w + (m_ts_offset w) mod 2 ^ 64) (2 ^ 64)).
  lia.
Qed.

Lemma audio_end_exact w :
  0 <= m_audio_ts w + m_ts_offset w <= SIZE_MAX ->
  audio_end w = m_audio_ts w + m_ts_offset w.
Proof.
  intros H. unfold audio_end, wrap, SIZE_MOD.
  rewrite Z.add_mod_idemp_r by lia. apply Z.mod_small.
  unfold SIZE_MAX in H. lia.
Qed.

Lemma to_int64_small z : - 2 ^ 63 <= z < 2 ^ 63 -> to_int64 z = z.
Proof. intros. unfold to_int64. rewrite Z.mod_small; lia. Qed.

(** C4 (as amended). For every timestamp [ts], [get_audio_sync] is the
    signed distance in nanoseconds from [ts] to the end of available audio
    as the code computes it, [m_audio_ts + m_ts_offset] in [uint64_t]
    arithmetic (the plain sum whenever that lies between 0 and [2^64 - 1]):
    negative exactly when that end is before [ts], and of absolute value the
    absolute difference clamped to [MAX_TS_DELTA], which is 16 s in ns. *)
Theorem get_audio_sync_correct w ts :
  0 <= ts <= SIZE_MAX ->
  (get_audio_sync w ts < 0 <-> audio_end w < ts) /\
  Z.abs (get_audio_sync w ts) =
    Z.min (Z.abs (audio_end w - ts)) MAX_TS_DELTA /\
  MAX_TS_DELTA = 16 * 10 ^ 9 /\
  (0 <= m_audio_ts w + m_ts_offset w <= SIZE_MAX ->
   audio_end w = m_audio_ts w + m_ts_offset w).
Proof.
  intros Hts. pose proof (audio_end_range w) as Ha.
  unfold get_audio_sync. rewrite MAX_TS_DELTA_value.
  set (a := audio_end w) in *. unfold SIZE_MAX in *.
  rewrite (wrap_small (Z.max a ts - Z.min a ts)) by (unfold SIZE_MAX; lia).
  assert (Hd : 0 <= Z.min (Z.max a ts - Z.min a ts) 16000000000 <= 16000000000)
    by lia.
  rewrite (to_int64_small (Z.min _ _)) by lia.
  splits.
  - destruct (Z.ltb_spec a ts); rewrite ?to_int64_small by lia; lia.
  - destruct (Z.ltb_spec a ts); rewrite ?to_int64_small by lia; lia.
  - reflexivity.
  - apply audio_end_exact.
Qed.

Lemma get_audio_sync_witness :
  0 <= 30000000000 <= SIZE_MAX /\
  Z.abs (get_audio_sync (mkws 5000000000 (-1000000000) NONE zero) 30000000000)
  = Z.min (Z.abs (audio_end (mkws 5000000000 (-1000000000) NONE zero)
                  - 30000000000)) MAX_TS_DELTA.
Proof.
  assert (H : 0 <= 30000000000 <= SIZE_MAX) by (unfold SIZE_MAX; lia).
  split; [exact H |].
  exact (proj1 (proj2 (get_audio_sync_correct
                         (mkws 5000000000 (-1000000000) NONE zero)
                         30000000000 H))).
Defined.

(** Where the plain sum [m_audio_ts + m_ts_offset] is negative, the
    [uint64_t] sum wraps to just below [2^64]: with [m_audio_ts = 5] and
    [m_ts_offset = -10] the audio ends before [ts = 10^6], and the delta is
    [+16000000000]. *)
Lemma get_audio_sync_negative_sum :
  ~ (forall w ts,
       0 <= m_audio_ts w <= SIZE_MAX ->
       - 2 ^ 63 <= m_ts_offset w < 2 ^ 63 ->
       0 <= ts <= SIZE_MAX ->
       (get_audio_sync w ts < 0 <-> m_audio_ts w + m_ts_offset w < ts)).
Proof.
  intros H.
  assert (E : get_audio_sync (mkws 5 (-10) NONE zero) 1000000 = 16000000000)
    by (vm_compute; reflexivity).
  destruct (H (mkws 5 (-10) NONE zero) 1000000) as [_ Hneg];
    try (unfold SIZE_MAX; cbn; lia).
  rewrite E in Hneg. cbn in Hneg. lia.
Qed.

(** *** dbfs *)

(** The literal of [denom] lies within half a unit in the last place of
    [10385566 * 2^-28] (scaled by [10^32 * 2^28]), and its 24-bit mantissa is
    normal. *)
Lemma denom_nearest :
  2 * Z.abs (10385566 * 10 ^ 32 - 3868924705242879469662125316986 * 2 ^ 28)
    <= 10 ^ 32 /\
  valid_binary prec emax denom = true.
Proof. split; [vm_compute; discriminate | reflexivity]. Qed.

Lemma hi_value : hi = S754_finite false 12981958 (-26).
Proof. reflexivity. Qed.

(** A number that is [<= 0] is not [> 0]. *)
Lemma fle_zero_not_flt mag : fle mag zero = true -> flt zero mag = false.
Proof. destruct mag as [[] | [] | | [] m e]; cbn; congruence. Qed.

(** C5. [dbfs mag] is [20 * log10 mag] when [mag > 0] and the floor constant
    [DB_MIN] when [mag <= 0]; in particular [dbfs 0] is the floor constant,
    which is not negative infinity as long as [DB_MIN] is not. *)
Theorem dbfs_correct log10f DB_MIN mag :
  (flt zero mag = true ->
   dbfs log10f DB_MIN mag = fmul (of_Z 20) (log10f mag)) /\
  (fle mag zero = true -> dbfs log10f DB_MIN mag = DB_MIN) /\
  dbfs log10f DB_MIN zero = DB_MIN /\
  (DB_MIN <> neg_infinity -> dbfs log10f DB_MIN zero <> neg_infinity).
Proof.
  unfold dbfs. splits.
  - intros ->. reflexivity.
  - intros H. now rewrite (fle_zero_not_flt mag H).
  - reflexivity.
  - intros H. exact H.
Qed.

Lemma dbfs_correct_witness :
  fle f_minus_one zero = true /\
  dbfs f_id f_floor f_minus_one = f_floor /\
  f_floor <> neg_infinity /\
  dbfs f_id f_floor zero <> neg_infinity.
Proof.
  pose proof (dbfs_correct f_id f_floor f_minus_one) as (_ & Hle & _ & _).
  pose proof (dbfs_correct f_id f_floor zero) as (_ & _ & _ & Hinf).
  assert (E : fle f_minus_one zero = true) by reflexivity.
  assert (N : f_floor <> neg_infinity) by discriminate.
  split; [exact E |]. split; [exact (Hle E) |].
  split; [exact N | exact (Hinf N)].
Defined.

(** *** Rounding of a product *)

Lemma digits2_size p : digits2_pos p = Pos.size p.
Proof. induction p; cbn; congruence. Qed.

Lemma digits2_bounds p :
  2 ^ (Zpos (digits2_pos p) - 1) <= Zpos p < 2 ^ Zpos (digits2_pos p).
Proof.
  rewrite digits2_size.
  pose proof (Pos.size_gt p) as Hgt. pose proof (Pos.size_le p) as Hle.
  apply Pos2Z.pos_lt_pos in Hgt. apply Pos2Z.pos_le_pos in Hle.
  rewrite Pos2Z.inj_pow in Hgt, Hle.
  split; [| exact Hgt].
  replace (Zpos (Pos.size p)) with (Zpos (Pos.size p) - 1 + 1) in Hle by lia.
  rewrite Z.pow_add_r in Hle by lia. change (2 ^ 1) with 2 in Hle. lia.
Qed.

Lemma shr_1_m mrs : 0 <= shr_m mrs -> shr_m (shr_1 mrs) = shr_m mrs / 2.
Proof.
  destruct mrs as [m r s]. cbn [shr_m]. intros Hm.
  destruct m as [| [p | p |] | p]; cbn [shr_1 shr_m]; try lia.
  - reflexivity.
  - apply (Z.div_unique _ 2 _ 1); lia.
  - apply (Z.div_unique _ 2 _ 0); lia.
  - reflexivity.
Qed.

Lemma shr_m_iter p : forall mrs,
  0 <= shr_m mrs ->
  shr_m (iter_pos shr_1 p mrs) = shr_m mrs / 2 ^ Zpos p.
Proof.
  assert (Hnn : forall q mrs, 0 <= shr_m mrs ->
                (shr_m (iter_pos shr_1 q mrs) = shr_m mrs / 2 ^ Zpos q) ->
                0 <= shr_m (iter_pos shr_1 q mrs)).
  { intros q mrs H0 E. rewrite E. apply Z.div_pos; lia. }
  induction p as [p IH | p IH |]; intros mrs Hm; cbn [iter_pos].
  - assert (H1 : 0 <= shr_m (shr_1 mrs)).
    { rewrite shr_1_m by lia. apply Z.div_pos; lia. }
    rewrite IH by (apply Hnn; auto). rewrite IH by auto.
    rewrite shr_1_m by lia. rewrite !Z.div_div by lia.
    f_equal.
    replace (Z.pos p~1) with (Z.succ (Z.pos p + Z.pos p)) by lia.
    rewrite Z.pow_succ_r, Z.pow_add_r by lia. ring.
  - rewrite IH by (apply Hnn; auto). rewrite IH by auto.
    rewrite !Z.div_div by lia.
    f_equal.
    replace (Z.pos p~0) with (Z.pos p + Z.pos p) by lia.
    rewrite Z.pow_add_r by lia. ring.
  - now apply shr_1_m.
Qed.

Lemma shr_m_shr mrs e n :
  0 <= shr_m mrs ->
  shr_m (fst (shr mrs e n)) = shr_m mrs / 2 ^ Z.max 0 n.
Proof.
  intros Hm. destruct n as [| p | p]; cbn [shr fst].
  - cbn. now rewrite Z.div_1_r.
  - rewrite shr_m_iter by lia. f_equal.
  - cbn. now rewrite Z.div_1_r.
Qed.

Lemma round_ge m l : m <= round_nearest_even m l <= m + 1.
Proof.
  destruct l as [| []]; cbn [round_nearest_even]; try lia.
  destruct (Z.even m); lia.
Qed.

Lemma shr_m_record m l : shr_m (shr_record_of_loc m l) = m.
Proof. destruct l as [| []]; reflexivity. Qed.

Lemma Zdigits2_bounds m :
  0 < m -> 2 ^ (Zdigits2 m - 1) <= m < 2 ^ Zdigits2 m.
Proof.
  destruct m as [| p | p]; try lia. intros _. apply digits2_bounds.
Qed.

Lemma snd_shr mrs e n : snd (shr mrs e n) = e + Z.max 0 n.
Proof. destruct n; cbn [shr snd]; lia. Qed.

Lemma pow2_le a b : 0 <= a <= b -> 2 ^ a <= 2 ^ b.
Proof. intros. apply Z.pow_le_mono_r; lia. Qed.

Lemma pow2_lt_inv a b : 0 <= b -> 2 ^ a < 2 ^ b -> a < b.
Proof. intros Hb H. apply (Z.pow_lt_mono_r_iff 2); try lia. Qed.

(** A product of two normal binary32 mantissas, scaled by an exponent that
    keeps it above the subnormal range, rounds to a positive number. *)
Lemma round_product_positive M E :
  2 ^ 46 <= Zpos M < 2 ^ 48 -> -175 <= E ->
  flt zero (binary_round_aux prec emax false (Zpos M) E loc_Exact) = true.
Proof.
  intros HM HE. unfold binary_round_aux, shr_fexp.
  set (n1 := fexp prec emax (Zdigits2 (Zpos M) + E) - E).
  pose proof (Zdigits2_bounds (Zpos M) ltac:(lia)) as Hd1.
  assert (Hd1' : 47 <= Zdigits2 (Zpos M) <= 48).
  { split.
    - assert (46 < Zdigits2 (Zpos M)); [| lia].
      apply pow2_lt_inv; [cbn; lia | lia].
    - assert (Zdigits2 (Zpos M) - 1 < 48); [| lia].
      apply pow2_lt_inv; lia. }
  assert (Hn1 : 23 <= n1 <= 26 /\ -149 <= E + n1).
  { unfold n1, fexp, emin, prec, emax. lia. }
  destruct (shr (shr_record_of_loc (Zpos M) loc_Exact) E n1) as [mrs' e'] eqn:S1.
  assert (Hm1 : shr_m mrs' = Zpos M / 2 ^ n1).
  { change mrs' with (fst (mrs', e')). rewrite <- S1.
    rewrite shr_m_shr by (cbn; lia). cbn [shr_m shr_record_of_loc].
    f_equal. f_equal. lia. }
  assert (He1 : e' = E + n1).
  { change e' with (snd (mrs', e')). rewrite <- S1. rewrite snd_shr. lia. }
  assert (Hm1b : 2 ^ 20 <= shr_m mrs' < 2 ^ 25).
  { rewrite Hm1.
    assert (H26 : 2 ^ 23 <= 2 ^ n1 <= 2 ^ 26) by (split; apply pow2_le; lia).
    split.
    - apply Z.div_le_lower_bound; [lia |].
      change (2 ^ 46) with (2 ^ 26 * 2 ^ 20) in HM. nia.
    - apply Z.div_lt_upper_bound; [lia |].
      change (2 ^ 48) with (2 ^ 23 * 2 ^ 25) in HM. nia. }
  set (m1r := round_nearest_even (shr_m mrs') (loc_of_shr_record mrs')).
  pose proof (round_ge (shr_m mrs') (loc_of_shr_record mrs')) as Hr.
  fold m1r in Hr.
  assert (Hm1r : 2 ^ 20 <= m1r <= 2 ^ 25) by lia.
  pose proof (Zdigits2_bounds m1r ltac:(lia)) as Hd2.
  assert (Hd2' : Zdigits2 m1r <= 26).
  { assert (Zdigits2 m1r - 1 < 26); [| lia]. apply pow2_lt_inv; lia. }
  set (n2 := fexp prec emax (Zdigits2 m1r + e') - e').
  assert (Hn2 : n2 <= 2).
  { unfold n2, fexp, emin, prec, emax. lia. }
  destruct (shr (shr_record_of_loc m1r loc_Exact) e' n2) as [mrs'' e''] eqn:S2.
  assert (Hm2 : shr_m mrs'' = m1r / 2 ^ Z.max 0 n2).
  { change mrs'' with (fst (mrs'', e'')). rewrite <- S2.
    rewrite shr_m_shr by (cbn; lia). reflexivity. }
  assert (Hpos : 0 < shr_m mrs'').
  { rewrite Hm2.
    assert (H4 : 1 <= 2 ^ Z.max 0 n2 <= 2 ^ 2) by (split; [change 1 with (2 ^ 0) |]; apply pow2_le; lia).
    apply Z.div_str_pos. change (2 ^ 2) with 4 in H4. lia. }
  destruct (shr_m mrs'') as [| m | m]; try lia.
  destruct (e'' <=? emax - prec); reflexivity.
Qed.

Lemma fadd_zero_positive r : flt zero r = true -> fadd zero r = r.
Proof. destruct r as [[] | [] | | [] m e]; cbn; try discriminate; reflexivity. Qed.

Lemma not_fle_zero g :
  fle g zero = false -> flt zero g = true \/ is_nan g = true.
Proof. destruct g as [[] | [] | | [] m e]; cbn; auto; discriminate. Qed.

(** With the linear [lerp], the denominator is positive for a normal
    positive gravity. *)
Lemma lerp_linear_positive g :
  positive_normal g = true -> flt zero (lerp_linear lo hi g) = true.
Proof.
  destruct g as [[] | [] | | [] m e]; cbn [positive_normal]; try discriminate.
  - intros _. reflexivity.
  - intros H. apply andb_true_iff in H as [Hd Hb].
    apply Z.eqb_eq in Hd. unfold bounded in Hb.
    apply andb_true_iff in Hb as [Hc _].
    unfold canonical_mantissa in Hc. apply Z.eqb_eq in Hc.
    rewrite Hd in Hc. unfold fexp, emin, prec, emax in Hc.
    pose proof (digits2_bounds m) as Hm. rewrite Hd in Hm. unfold prec in Hm.
    change (24 - 1) with 23 in Hm.
    unfold lerp_linear.
    change (fsub hi lo) with hi. rewrite hi_value.
    assert (Hp : flt zero (fmul (S754_finite false m e)
                              (S754_finite false 12981958 (-26))) = true).
    { unfold fmul. cbn [SFmul xorb].
      apply round_product_positive; [| lia].
      rewrite Pos2Z.inj_mul.
      change (2 ^ 46) with (2 ^ 23 * 2 ^ 23).
      change (2 ^ 48) with (2 ^ 24 * 2 ^ 24).
      change (2 ^ 23) with 8388608 in *. change (2 ^ 24) with 16777216 in *.
      nia. }
    unfold lo. rewrite fadd_zero_positive by exact Hp. exact Hp.
Qed.

(** *** get_gravity *)

Section Gravity.

Variable expf : float -> float.
Variable lerp : float -> float -> float -> float.

(** C7 (as amended). [get_gravity] returns 0 when the smoothing mode is
    [NONE] or [m_gravity <= 0]; otherwise it returns [m_gravity] in mode
    [EXPONENTIAL] and [exp (- seconds / lerp (0, 5 k, m_gravity))] in mode
    [TVEXPONENTIAL], where [k] is [denom]. *)
Theorem get_gravity_cases w seconds :
  (m_tsmoothing w = NONE \/ fle (m_gravity w) zero = true ->
   get_gravity expf lerp w seconds = zero) /\
  (m_tsmoothing w = EXPONENTIAL -> fle (m_gravity w) zero = false ->
   get_gravity expf lerp w seconds = m_gravity w) /\
  (m_tsmoothing w = TVEXPONENTIAL -> fle (m_gravity w) zero = false ->
   get_gravity expf lerp w seconds =
   expf (fdiv (fneg seconds)
              (lerp zero (fmul denom (of_Z 5)) (m_gravity w)))).
Proof.
  unfold get_gravity, get_gravity_eval. splits.
  - intros [-> | ->]; [reflexivity |]. now rewrite orb_true_r.
  - intros -> ->. reflexivity.
  - intros -> ->. reflexivity.
Qed.

(** C10 (as amended). For every [seconds], [get_gravity] returns exactly 0,
    and divides by nothing, whenever the smoothing mode is [NONE] or
    [m_gravity <= 0]; the only division it ever evaluates is the one by
    [lerp (0, 5 k, m_gravity)] in mode [TVEXPONENTIAL], and then [m_gravity]
    is positive or not a number, so a gravity of 0 never reaches the
    division. With the linear [lerp] the denominator is strictly positive
    for every normal positive [m_gravity]. *)
Theorem get_gravity_guard w seconds :
  (m_tsmoothing w = NONE \/ fle (m_gravity w) zero = true ->
   get_gravity expf lerp w seconds = zero /\
   divisors expf lerp w seconds = []) /\
  (forall d, In d (divisors expf lerp w seconds) ->
     m_tsmoothing w = TVEXPONENTIAL /\
     d = lerp lo hi (m_gravity w) /\
     fle (m_gravity w) zero = false /\
     (flt zero (m_gravity w) = true \/ is_nan (m_gravity w) = true)) /\
  (forall d, In d (divisors expf lerp_linear w seconds) ->
     positive_normal (m_gravity w) = true -> flt zero d = true).
Proof.
  assert (Hdiv : forall l d, In d (divisors expf l w seconds) ->
            m_tsmoothing w = TVEXPONENTIAL /\
            d = l lo hi (m_gravity w) /\
            fle (m_gravity w) zero = false).
  { intros l d. unfold divisors, get_gravity_eval.
    destruct (fle (m_gravity w) zero) eqn:Hle;
      [rewrite orb_true_r; intros [] |].
    destruct (m_tsmoothing w); cbn; try (intros []; fail).
    intros [<- | []]. auto. }
  splits.
  - unfold get_gravity, divisors, get_gravity_eval.
    intros [-> | ->]; [split; reflexivity |]. rewrite orb_true_r.
    split; reflexivity.
  - intros d Hd. destruct (Hdiv lerp d Hd) as (Hm & E & Hle).
    splits; auto. now apply not_fle_zero.
  - intros d Hd Hn. destruct (Hdiv lerp_linear d Hd) as (_ & -> & _).
    now apply lerp_linear_positive.
Qed.

End Gravity.

Lemma get_gravity_cases_witness :
  (fle (m_gravity (mkws 0 0 TVEXPONENTIAL f_minus_one)) zero = true /\
   get_gravity f_id lerp_linear (mkws 0 0 TVEXPONENTIAL f_minus_one) f_one
   = zero) /\
  (m_tsmoothing (mkws 0 0 EXPONENTIAL f_one) = EXPONENTIAL /\
   fle (m_gravity (mkws 0 0 EXPONENTIAL f_one)) zero = false /\
   get_gravity f_id lerp_linear (mkws 0 0 EXPONENTIAL f_one) f_one = f_one) /\
  (m_tsmoothing (mkws 0 0 TVEXPONENTIAL f_one) = TVEXPONENTIAL /\
   fle (m_gravity (mkws 0 0 TVEXPONENTIAL f_one)) zero = false /\
   get_gravity f_id lerp_linear (mkws 0 0 TVEXPONENTIAL f_one) f_one
   = fdiv (fneg f_one) hi).
Proof.
  split; [| split].
  - split; [reflexivity |].
    exact (proj1 (get_gravity_cases f_id lerp_linear
                    (mkws 0 0 TVEXPONENTIAL f_minus_one) f_one)
             (or_intror eq_refl)).
  - split; [reflexivity |]. split; [reflexivity |].
    exact (proj1 (proj2 (get_gravity_cases f_id lerp_linear
                           (mkws 0 0 EXPONENTIAL f_one) f_one))
             eq_refl eq_refl).
  - split; [reflexivity |]. split; [reflexivity |].
    exact (proj2 (proj2 (get_gravity_cases f_id lerp_linear
                           (mkws 0 0 TVEXPONENTIAL f_one) f_one))
             eq_refl eq_refl).
Defined.

(** In mode [EXPONENTIAL] a negative [m_gravity] is not returned. *)
Lemma get_gravity_negative :
  ~ (forall expf lerp w seconds,
       m_tsmoothing w = EXPONENTIAL ->
       get_gravity expf lerp w seconds = m_gravity w).
Proof.
  intros H.
  specialize (H f_id lerp_linear (mkws 0 0 EXPONENTIAL f_minus_one) f_one
                eq_refl).
  discriminate H.
Qed.

Lemma get_gravity_guard_witness :
  (fle (m_gravity (mkws 0 0 TVEXPONENTIAL zero)) zero = true /\
   get_gravity f_id lerp_linear (mkws 0 0 TVEXPONENTIAL zero) f_one = zero /\
   divisors f_id lerp_linear (mkws 0 0 TVEXPONENTIAL zero) f_one = []) /\
  (In hi (divisors f_id lerp_linear (mkws 0 0 TVEXPONENTIAL f_one) f_one) /\
   positive_normal (m_gravity (mkws 0 0 TVEXPONENTIAL f_one)) = true /\
   flt zero hi = true).
Proof.
  split.
  - split; [reflexivity |].
    exact (proj1 (get_gravity_guard f_id lerp_linear
                    (mkws 0 0 TVEXPONENTIAL zero) f_one)
             (or_intror eq_refl)).
  - assert (Hin : In hi (divisors f_id lerp_linear
                           (mkws 0 0 TVEXPONENTIAL f_one) f_one))
      by (left; reflexivity).
    split; [exact Hin |]. split; [reflexivity |].
    exact (proj2 (proj2 (get_gravity_guard f_id lerp_linear
                           (mkws 0 0 TVEXPONENTIAL f_one) f_one))
             hi Hin eq_refl).
Defined.

(** With the linear [lerp], the smallest positive gravity is let through by
    the guard and the division is by [+0]: the product [2^-149 * 5 k]
    underflows. *)
Lemma get_gravity_zero_divisor :
  ~ (forall expf w seconds d,
       In d (divisors expf lerp_linear w seconds) -> flt zero d = true).
Proof.
  intros H.
  specialize (H f_id (mkws 0 0 TVEXPONENTIAL f_tiny) f_one zero
                (or_introl eq_refl)).
  discriminate H.
Qed.

End WAVSourceFacts.

(** * Further properties of the ring buffer *)

Module CircleBufExtras.
Import CircleBuf CircleBufFacts.

(** ** What a pop leaves behind *)

(** The buffer after [circlebuf_pop_front], field by field. *)
Lemma pop_front_shape cb dst n cb' out :
  wf cb -> 0 <= n <= size cb ->
  circlebuf_pop_front cb dst n = Some (cb', out) ->
  cb' =
  if size cb - n =? 0 then mkcb (data cb) 0 0 0 (capacity cb)
  else mkcb (data cb) (size cb - n)
         (if start_pos cb + n <? capacity cb then start_pos cb + n
          else start_pos cb + n - capacity cb)
         (end_pos cb) (capacity cb).
Proof.
  intros Hwf Hn E. unfold circlebuf_pop_front in E.
  destruct (circlebuf_peek_front cb dst n); [| discriminate].
  cbn [bind] in E.
  destruct cb as [d s st e c]. unfold wf in Hwf. fields.
  destruct Hwf as (Hlen & Hcap & Hs & H0 & Hpos).
  rewrite (wrap_small (s - n)) in E by (unfold SIZE_MAX, PTRDIFF_MAX in *; lia).
  destruct (Z.eqb_spec (s - n) 0) as [Hz | Hz].
  - injection E as <- _. fields. now rewrite Hz.
  - assert (Hs0 : 0 < s) by lia. specialize (Hpos Hs0).
    rewrite (wrap_small (st + n)) in E by (unfold SIZE_MAX, PTRDIFF_MAX in *; lia).
    destruct (Z.leb_spec c (st + n)); destruct (Z.ltb_spec (st + n) c); try lia.
    + rewrite (wrap_small (st + n - c)) in E
        by (unfold SIZE_MAX, PTRDIFF_MAX in *; lia).
      now injection E as <- _.
    + now injection E as <- _.
Qed.

(** The buffer after [circlebuf_pop_back], field by field. *)
Lemma pop_back_shape cb dst n cb' out :
  wf cb -> 0 <= n <= size cb ->
  circlebuf_pop_back cb dst n = Some (cb', out) ->
  cb' =
  if size cb - n =? 0 then mkcb (data cb) 0 0 0 (capacity cb)
  else mkcb (data cb) (size cb - n) (start_pos cb)
         (if end_pos cb <=? n then capacity cb - (n - end_pos cb)
          else end_pos cb - n)
         (capacity cb).
Proof.
  intros Hwf Hn E. unfold circlebuf_pop_back in E.
  destruct (circlebuf_peek_back cb dst n); [| discriminate].
  cbn [bind] in E.
  destruct cb as [d s st e c]. unfold wf in Hwf. fields.
  destruct Hwf as (Hlen & Hcap & Hs & H0 & Hpos).
  rewrite (wrap_small (s - n)) in E by (unfold SIZE_MAX, PTRDIFF_MAX in *; lia).
  destruct (Z.eqb_spec (s - n) 0) as [Hz | Hz].
  - injection E as <- _. fields. now rewrite Hz.
  - assert (Hs0 : 0 < s) by lia. specialize (Hpos Hs0).
    destruct (Z.leb_spec e n).
    + rewrite (wrap_small (n - e)) in E
        by (unfold SIZE_MAX, PTRDIFF_MAX in *; lia).
      rewrite (wrap_small (c - (n - e))) in E
        by (unfold SIZE_MAX, PTRDIFF_MAX in *; lia).
      now injection E as <- _.
    + rewrite (wrap_small (e - n)) in E
        by (unfold SIZE_MAX, PTRDIFF_MAX in *; lia).
      now injection E as <- _.
Qed.

(** X1. A pop never touches the block: after [circlebuf_pop_front] or
    [circlebuf_pop_back] the block holds the same bytes and [capacity] is the
    same (nothing is freed or shrunk); and popping everything that is stored
    leaves [size = start_pos = end_pos = 0]. *)
Theorem pop_keeps_block cb dst n cb' out :
  wf cb -> 0 <= n <= size cb ->
  circlebuf_pop_front cb dst n = Some (cb', out) \/
  circlebuf_pop_back cb dst n = Some (cb', out) ->
  data cb' = data cb /\ capacity cb' = capacity cb /\
  (n = size cb -> size cb' = 0 /\ start_pos cb' = 0 /\ end_pos cb' = 0).
Proof.
  intros Hwf Hn [E | E].
  - rewrite (pop_front_shape cb dst n cb' out Hwf Hn E).
    destruct (Z.eqb_spec (size cb - n) 0); cbn; splits; auto; lia.
  - rewrite (pop_back_shape cb dst n cb' out Hwf Hn E).
    destruct (Z.eqb_spec (size cb - n) 0); cbn; splits; auto; lia.
Qed.

(** X2. Pointers into the buffer survive a [circlebuf_pop_front]: the
    element that was at index [n + idx] is afterwards at index [idx], at the
    same address ([circlebuf_data] gives the same offset in the same
    block). *)
Theorem data_after_pop_front cb dst n idx cb' out :
  wf cb -> 0 <= n -> 0 <= idx -> n + idx < size cb ->
  circlebuf_pop_front cb dst n = Some (cb', out) ->
  circlebuf_data cb' idx = circlebuf_data cb (n + idx) /\
  circlebuf_data cb' idx <> None /\
  data cb' = data cb.
Proof.
  intros Hwf Hn Hi Hlt E.
  destruct (pop_front_spec cb dst n Hwf) as (cb1 & E1 & Hwf1 & _ & Hs1 & _);
    [lia |].
  assert (cb1 = cb') by congruence. subst cb1.
  pose proof (pop_front_shape cb dst n cb' out Hwf ltac:(lia) E) as Hshape.
  rewrite (data_spec cb' idx Hwf1) by lia.
  rewrite (data_spec cb (n + idx) Hwf) by lia.
  destruct (Z.eqb_spec (size cb - n) 0); [lia |].
  splits; [| discriminate | now rewrite Hshape].
  f_equal. rewrite Hshape. unfold phys. cbn.
  unfold wf in Hwf. destruct Hwf as (_ & _ & Hs & _ & Hpos).
  assert (Hs0 : 0 < size cb) by lia. specialize (Hpos Hs0).
  zbool; lia.
Qed.

(** ** Pushing into room that is already there *)

Section WithHeap.

Variable uninit : Z -> byte.

(** X3. When the block has room for the new bytes, [circlebuf_push_back]
    allocates nothing and moves nothing: [capacity] and [start_pos] are
    unchanged and every element already stored keeps its address. *)
Theorem push_back_in_place cb src cb' :
  wf cb -> size cb + len src <= capacity cb ->
  circlebuf_push_back uninit cb src = Some cb' ->
  capacity cb' = capacity cb /\ start_pos cb' = start_pos cb /\
  len (data cb') = len (data cb) /\
  (forall idx, 0 <= idx < size cb ->
     circlebuf_data cb' idx = circlebuf_data cb idx /\
     load (data cb') (phys cb idx) = load (data cb) (phys cb idx)).
Proof.
  intros Hwf Hroom E. pose proof (len_nonneg src) as Hn.
  assert (Hok : alloc_ok cb (size cb + len src)) by (unfold alloc_ok; lia).
  destruct (push_back_spec uninit cb src Hwf Hok)
    as (cb1 & E1 & Hwf1 & Hc1 & Hs1 & _).
  assert (cb1 = cb') by congruence. subst cb1. clear E1.
  assert (Hb : 0 <= size cb <= capacity cb /\ capacity cb <= PTRDIFF_MAX)
    by (unfold wf in Hwf; lia).
  assert (Hf : capacity cb' = capacity cb /\ start_pos cb' = start_pos cb /\
               len (data cb') = len (data cb)).
  { unfold circlebuf_push_back, circlebuf_ensure_capacity in E.
    rewrite (wrap_small (size cb + len src)) in E
      by (unfold SIZE_MAX, PTRDIFF_MAX in *; lia).
    fields.
    destruct (Z.leb_spec (size cb + len src) (capacity cb)); [| lia].
    cbn [bind] in E. fields.
    match type of E with (if ?c then _ else _) = _ => destruct c end.
    - match type of E with
      | bind ?m _ = _ => destruct m as [d1 |] eqn:M1; [| discriminate]
      end.
      cbn [bind] in E.
      match type of E with
      | bind ?m _ = _ => destruct m as [d2 |] eqn:M2; [| discriminate]
      end.
      cbn [bind] in E. injection E as <-. fields.
      apply memcpy_len in M2. splits; auto.
      rewrite M2.
      match type of M1 with (if ?c then _ else _) = _ => destruct c end.
      + now injection M1 as <-.
      + now apply memcpy_len in M1.
    - match type of E with
      | bind ?m _ = _ => destruct m as [d1 |] eqn:M1; [| discriminate]
      end.
      cbn [bind] in E. injection E as <-. fields.
      apply memcpy_len in M1. splits; auto. }
  destruct Hf as (Hcap & Hst & Hlen). splits; auto.
  intros idx Hi. split.
  - rewrite (data_spec cb' idx Hwf1) by lia.
    rewrite (data_spec cb idx Hwf) by lia.
    unfold phys. now rewrite Hcap, Hst.
  - assert (Hl : load (contents cb') idx = load (contents cb) idx).
    { rewrite Hc1, load_app, len_contents by lia.
      destruct (Z.ltb_spec idx (size cb)); [reflexivity | lia]. }
    rewrite !load_contents in Hl by lia. unfold logical in Hl.
    unfold phys in *. rewrite Hcap, Hst in Hl. exact Hl.
Qed.

(** ** The zero-filling operations *)

(** X4. [circlebuf_push_back_zero] appends [n] zero bytes and
    [circlebuf_push_front_zero] prepends them: they do what the pushes do with
    a block of [n] zeros, and return whenever the allocation can be served. *)
Theorem push_zero_correct cb n :
  wf cb -> 0 <= n -> alloc_ok cb (size cb + n) ->
  (exists cb',
     circlebuf_push_back_zero uninit cb n = Some cb' /\
     circlebuf_push_back uninit cb (zeros n) = Some cb' /\
     wf cb' /\ contents cb' = contents cb ++ zeros n /\
     size cb' = size cb + n) /\
  (exists cb',
     circlebuf_push_front_zero uninit cb n = Some cb' /\
     circlebuf_push_front uninit cb (zeros n) = Some cb' /\
     wf cb' /\ contents cb' = zeros n ++ contents cb /\
     size cb' = size cb + n).
Proof.
  intros Hwf Hn Hok.
  assert (Hok' : alloc_ok cb (size cb + len (zeros n)))
    by (rewrite len_zeros by lia; exact Hok).
  split.
  - destruct (push_back_spec uninit cb (zeros n) Hwf Hok')
      as (cb' & E & Hwf' & Hc & Hs & _).
    exists cb'. rewrite push_back_zero_eq by auto.
    rewrite len_zeros in Hs by lia. auto.
  - destruct (push_front_spec uninit cb (zeros n) Hwf Hok')
      as (cb' & E & Hwf' & Hc & Hs & _).
    exists cb'. rewrite push_front_zero_eq by auto.
    rewrite len_zeros in Hs by lia. auto.
Qed.

(** X5. [circlebuf_upsize cb s] never shrinks: for [s <= size] it leaves the
    buffer as it is; for a larger [s] it keeps the bytes stored, appends
    zeros up to a size of exactly [s], and is the same call as
    [circlebuf_push_back_zero] with the difference. *)
Theorem upsize_correct cb s :
  wf cb ->
  (s <= size cb -> circlebuf_upsize uninit cb s = Some cb) /\
  (size cb < s -> alloc_ok cb s ->
   exists cb',
     circlebuf_upsize uninit cb s = Some cb' /\
     circlebuf_push_back_zero uninit cb (s - size cb) = Some cb' /\
     wf cb' /\ size cb' = s /\
     contents cb' = contents cb ++ zeros (s - size cb)).
Proof.
  intros Hwf. split.
  - intros Hle. unfold circlebuf_upsize.
    destruct (Z.leb_spec s (size cb)); [reflexivity | lia].
  - intros Hlt Hok.
    pose proof (alloc_ok_bound _ _ Hwf Hok) as Hb.
    assert (Hs : 0 <= size cb) by (unfold wf in Hwf; lia).
    destruct (upsize_spec uninit cb s Hwf) as (cb' & E & Hwf' & Hc & Hs' & _);
      [lia | exact Hok |].
    exists cb'. splits; auto.
    rewrite <- upsize_eq by (unfold SIZE_MAX, PTRDIFF_MAX in *; lia).
    exact E.
Qed.

(** ** Round trips *)

Lemma firstn_len_app a b : firstn (Z.to_nat (len a)) (a ++ b) = a.
Proof. apply front_app. Qed.

Lemma skipn_len_app a b : skipn (Z.to_nat (len a)) (a ++ b) = b.
Proof. apply drop_front_app. Qed.

(** X6. What is pushed at one end comes back from that end: after
    [circlebuf_push_back] of a block, [circlebuf_pop_back] of its length
    returns the block and leaves the content and the size as they were, and
    likewise [circlebuf_push_front] followed by [circlebuf_pop_front]. *)
Theorem push_pop_same_end cb src :
  wf cb -> alloc_ok cb (size cb + len src) ->
  (exists cb1 cb2,
     circlebuf_push_back uninit cb src = Some cb1 /\
     circlebuf_pop_back cb1 true (len src) = Some (cb2, src) /\
     contents cb2 = contents cb /\ size cb2 = size cb) /\
  (exists cb1 cb2,
     circlebuf_push_front uninit cb src = Some cb1 /\
     circlebuf_pop_front cb1 true (len src) = Some (cb2, src) /\
     contents cb2 = contents cb /\ size cb2 = size cb).
Proof.
  intros Hwf Hok. pose proof (len_nonneg src) as Hn.
  assert (Hs : 0 <= size cb) by (unfold wf in Hwf; lia).
  pose proof (len_contents cb Hs) as Hlc.
  split.
  - destruct (push_back_spec uninit cb src Hwf Hok)
      as (cb1 & E1 & Hwf1 & Hc1 & Hs1 & _).
    destruct (pop_back_spec cb1 true (len src) Hwf1)
      as (cb2 & E2 & _ & Hc2 & Hs2 & _); [lia |].
    exists cb1, cb2.
    replace (size cb1 - len src) with (len (contents cb)) in * by lia.
    rewrite Hc1, skipn_len_app in E2. rewrite Hc1, firstn_len_app in Hc2.
    splits; auto. lia.
  - destruct (push_front_spec uninit cb src Hwf Hok)
      as (cb1 & E1 & Hwf1 & Hc1 & Hs1 & _).
    destruct (pop_front_spec cb1 true (len src) Hwf1)
      as (cb2 & E2 & _ & Hc2 & Hs2 & _); [lia |].
    exists cb1, cb2.
    rewrite Hc1, firstn_len_app in E2. rewrite Hc1, skipn_len_app in Hc2.
    splits; auto. lia.
Qed.

(** X7. A pop can be undone: pushing the bytes [circlebuf_pop_front]
    returned back at the front, or those [circlebuf_pop_back] returned back
    at the back, restores the content, and needs no allocation (the capacity
    is unchanged). *)
Theorem pop_push_restores cb n :
  wf cb -> 0 <= n <= size cb ->
  (exists cb1 out cb2,
     circlebuf_pop_front cb true n = Some (cb1, out) /\
     circlebuf_push_front uninit cb1 out = Some cb2 /\
     contents cb2 = contents cb /\ capacity cb2 = capacity cb) /\
  (exists cb1 out cb2,
     circlebuf_pop_back cb true n = Some (cb1, out) /\
     circlebuf_push_back uninit cb1 out = Some cb2 /\
     contents cb2 = contents cb /\ capacity cb2 = capacity cb).
Proof.
  intros Hwf Hn.
  assert (Hs : 0 <= size cb <= capacity cb) by (unfold wf in Hwf; lia).
  pose proof (len_contents cb (proj1 Hs)) as Hlc.
  split.
  - destruct (pop_front_spec cb true n Hwf Hn)
      as (cb1 & E1 & Hwf1 & Hc1 & Hs1 & Hcap1).
    set (out := firstn (Z.to_nat n) (contents cb)) in *.
    assert (Hlo : len out = n) by (apply len_firstn; lia).
    assert (Hok : alloc_ok cb1 (size cb1 + len out))
      by (unfold alloc_ok; lia).
    destruct (push_front_spec uninit cb1 out Hwf1 Hok)
      as (cb2 & E2 & _ & Hc2 & _ & Hcap2).
    exists cb1, out, cb2. splits; auto.
    + rewrite Hc2, Hc1. apply firstn_skipn.
    + rewrite Hcap2. unfold grown_capacity.
      destruct (Z.leb_spec (size cb1 + len out) (capacity cb1)); lia.
  - destruct (pop_back_spec cb true n Hwf Hn)
      as (cb1 & E1 & Hwf1 & Hc1 & Hs1 & Hcap1).
    set (out := skipn (Z.to_nat (size cb - n)) (contents cb)) in *.
    assert (Hlo : len out = n)
      by (unfold out; rewrite len_skipn; lia).
    assert (Hok : alloc_ok cb1 (size cb1 + len out))
      by (unfold alloc_ok; lia).
    destruct (push_back_spec uninit cb1 out Hwf1 Hok)
      as (cb2 & E2 & _ & Hc2 & _ & Hcap2).
    exists cb1, out, cb2. splits; auto.
    + rewrite Hc2, Hc1. apply firstn_skipn.
    + rewrite Hcap2. unfold grown_capacity.
      destruct (Z.leb_spec (size cb1 + len out) (capacity cb1)); lia.
Qed.

(** ** Reserving and the first allocation *)

(** X8. After [circlebuf_reserve cb c], pushes that keep the size within
    [c] never reallocate: the capacity stays what the reserve left,
    [max (capacity cb) c], and the content is extended as usual. *)
Theorem reserve_then_push cb c src :
  wf cb -> size cb + len src <= c -> c <= PTRDIFF_MAX ->
  exists cb1 cb2,
    circlebuf_reserve uninit cb c = Some cb1 /\
    circlebuf_push_back uninit cb1 src = Some cb2 /\
    contents cb1 = contents cb /\
    capacity cb1 = Z.max (capacity cb) c /\
    capacity cb2 = capacity cb1 /\
    contents cb2 = contents cb ++ src.
Proof.
  intros Hwf Hfit Hmax. pose proof (len_nonneg src) as Hn.
  destruct (reserve_spec uninit cb c Hwf) as
    (cb1 & E1 & Hwf1 & Hs1 & _ & Hcap1 & Hl1); [lia |].
  assert (Hc1 : contents cb1 = contents cb).
  { apply contents_ext; [exact Hs1 |]. intros i Hi. apply Hl1. lia. }
  assert (Hok : alloc_ok cb1 (size cb1 + len src)) by (unfold alloc_ok; lia).
  destruct (push_back_spec uninit cb1 src Hwf1 Hok)
    as (cb2 & E2 & _ & Hc2 & _ & Hcap2).
  exists cb1, cb2. splits; auto.
  - rewrite Hcap2. unfold grown_capacity.
    destruct (Z.leb_spec (size cb1 + len src) (capacity cb1)); lia.
  - now rewrite Hc2, Hc1.
Qed.

(** X9. The first push into a buffer that was just initialised or freed
    allocates exactly the bytes pushed: the capacity is the length of the
    block (twice the old capacity is 0), and the content is the block. *)
Theorem first_push_exact cb src :
  0 < len src <= PTRDIFF_MAX ->
  exists cb',
    circlebuf_push_back uninit (circlebuf_free cb) src = Some cb' /\
    circlebuf_push_back uninit (circlebuf_init cb) src = Some cb' /\
    capacity cb' = len src /\ size cb' = len src /\
    len (data cb') = len src /\ contents cb' = src.
Proof.
  intros Hn. unfold circlebuf_free, circlebuf_init.
  assert (Hok : alloc_ok zeroed (size zeroed + len src))
    by (unfold alloc_ok, zeroed; cbn [size capacity]; lia).
  destruct (push_back_spec uninit zeroed src wf_zeroed Hok)
    as (cb' & E & Hwf' & Hc & Hs & Hcap).
  exists cb'. change (contents zeroed) with (@nil byte) in Hc.
  unfold grown_capacity, zeroed in Hcap, Hs. cbn [size capacity] in Hcap, Hs.
  destruct (Z.leb_spec (0 + len src) 0); [lia |].
  splits; auto; try lia.
  unfold wf in Hwf'. lia.
Qed.

(** ** Placing at and beyond the end *)

(** X10. Where the allocation can be served (which leaves out the positions
    whose end [position + n] overflows [size_t]), [circlebuf_place] at a
    position at or beyond the end extends the content: the bytes stored, then
    zeros for the gap up to [position], then the block. Placed exactly at the
    end it leaves the content that [circlebuf_push_back] leaves. *)
Theorem place_extends cb position src :
  wf cb -> size cb <= position -> alloc_ok cb (position + len src) ->
  (exists cb',
     circlebuf_place uninit cb position src = Some cb' /\
     contents cb' = contents cb ++ zeros (position - size cb) ++ src) /\
  (position = size cb ->
   exists cb1 cb2,
     circlebuf_place uninit cb position src = Some cb1 /\
     circlebuf_push_back uninit cb src = Some cb2 /\
     contents cb1 = contents cb2 /\ capacity cb1 = capacity cb2).
Proof.
  intros Hwf Hp Hok. pose proof (len_nonneg src) as Hn.
  assert (Hs : 0 <= size cb) by (unfold wf in Hwf; lia).
  destruct (place_spec uninit cb position src Hwf ltac:(lia) Hok)
    as (cb' & E & Hwf' & Hs' & Hcap' & Hl').
  assert (Hc : contents cb' = contents cb ++ zeros (position - size cb) ++ src).
  { apply load_ext.
    - rewrite !len_app, !len_contents, len_zeros by lia. lia.
    - intros i Hi. rewrite len_contents in Hi by lia.
      rewrite load_contents, Hl' by lia.
      rewrite load_app, len_contents by lia.
      destruct (Z.ltb_spec i (size cb)).
      + destruct (Z.leb_spec position i); [lia |]. cbn [andb].
        now rewrite load_contents by lia.
      + rewrite load_app, len_zeros by lia.
        destruct (Z.ltb_spec (i - size cb) (position - size cb)).
        * destruct (Z.leb_spec position i); [lia |]. cbn [andb].
          now rewrite load_zeros.
        * destruct (Z.leb_spec position i); [| lia].
          destruct (Z.ltb_spec i (position + len src)); [| lia].
          cbn [andb]. f_equal. lia. }
  split.
  - eauto.
  - intros ->.
    destruct (push_back_spec uninit cb src Hwf Hok)
      as (cb2 & E2 & _ & Hc2 & _ & Hcap2).
    exists cb', cb2. splits; auto; [| congruence].
    rewrite Hc, Hc2, Z.sub_diag. reflexivity.
Qed.

End WithHeap.

(** ** Peeking *)

(** X11. The two peeks split the content: for every [n] up to [size], the
    first [n] bytes from [circlebuf_peek_front] followed by the last
    [size - n] bytes from [circlebuf_peek_back] are the whole content; in
    particular either peek of [size] bytes returns all of it. *)
Theorem peeks_partition cb n :
  wf cb -> 0 <= n <= size cb ->
  (exists a b,
     circlebuf_peek_front cb true n = Some a /\
     circlebuf_peek_back cb true (size cb - n) = Some b /\
     len a = n /\ len b = size cb - n /\ a ++ b = contents cb) /\
  circlebuf_peek_front cb true (size cb) = Some (contents cb) /\
  circlebuf_peek_back cb true (size cb) = Some (contents cb).
Proof.
  intros Hwf Hn.
  assert (Hs : 0 <= size cb) by lia.
  pose proof (len_contents cb Hs) as Hlc.
  splits.
  - exists (firstn (Z.to_nat n) (contents cb)),
           (skipn (Z.to_nat n) (contents cb)).
    splits.
    + now apply peek_front_spec.
    + rewrite peek_back_spec by (auto; lia).
      do 2 f_equal. lia.
    + apply len_firstn. lia.
    + rewrite len_skipn; lia.
    + apply firstn_skipn.
  - rewrite peek_front_spec by (auto; lia). f_equal.
    apply firstn_all2. unfold len in Hlc. lia.
  - rewrite peek_back_spec by (auto; lia). rewrite Z.sub_diag. reflexivity.
Qed.

(** ** Uninitialised memory stays inside *)

(** X13. No byte of uninitialised heap memory ever reaches the caller:
    whatever the bytes that [brealloc] adds hold, a run of pushes, peeks and
    pops that stays within the bytes stored returns the same outputs and ends
    with the same content and size. *)
Theorem run_ignores_heap u1 u2 ops : forall cb q outs,
  wf cb ->
  2 * (size cb + pushed ops) <= PTRDIFF_MAX ->
  queue_run ops (contents cb) = Some (q, outs) ->
  exists cb1 cb2,
    run u1 ops cb = Some (cb1, outs) /\
    run u2 ops cb = Some (cb2, outs) /\
    contents cb1 = contents cb2 /\ size cb1 = size cb2.
Proof.
  assert (Hgen : forall cbA cbB q outs,
    wf cbA -> wf cbB -> contents cbA = contents cbB -> size cbA = size cbB ->
    2 * (size cbA + pushed ops) <= PTRDIFF_MAX ->
    queue_run ops (contents cbA) = Some (q, outs) ->
    exists cb1 cb2,
      run u1 ops cbA = Some (cb1, outs) /\
      run u2 ops cbB = Some (cb2, outs) /\
      contents cb1 = contents cb2 /\ size cb1 = size cb2).
  { induction ops as [| o ops IH]; intros cbA cbB q outs HA HB Hc Hs Hb Hq.
    - cbn in *. injection Hq as <- <-. exists cbA, cbB. auto.
    - cbn [queue_run run] in *.
      destruct (queue_exec o (contents cbA)) as [[q1 out1] |] eqn:E1;
        [| discriminate].
      cbn [bind fst snd] in Hq.
      destruct (queue_run ops q1) as [[q2 outs2] |] eqn:E2; [| discriminate].
      cbn [bind fst snd] in Hq. injection Hq as <- <-.
      rewrite pushed_cons in Hb.
      pose proof (pushed_nonneg ops) as Hp.
      pose proof (pushed_nonneg [o]) as Hp1.
      pose proof (queue_exec_popped u1 _ _ _ _ E1) as Hpop.
      destruct (exec_refines u1 o cbA q1 out1 HA) as
        (a1 & X1 & Ha1 & Hca1 & Hsa1 & _); [lia | exact E1 |].
      rewrite Hc in E1.
      destruct (exec_refines u2 o cbB q1 out1 HB) as
        (b1 & Y1 & Hb1 & Hcb1 & Hsb1 & _); [lia | exact E1 |].
      rewrite X1, Y1. cbn [bind fst snd]. subst q1.
      destruct (IH a1 b1 q2 outs2 Ha1 Hb1) as (c1 & c2 & R1 & R2 & Hcc & Hss);
        [congruence | lia | lia | exact E2 |].
      rewrite R1, R2. cbn [bind fst snd]. exists c1, c2. auto. }
  intros cb q outs Hwf Hb Hq. now apply (Hgen cb cb q outs).
Qed.

(** ** Bounds *)

(** X14. A push never over-allocates: afterwards the capacity is either
    what it was or, when the block had to grow, at most twice the bytes now
    stored (and at least twice the old capacity). *)
Theorem push_capacity_bound u cb src cb' :
  wf cb -> len src <= PTRDIFF_MAX ->
  circlebuf_push_back u cb src = Some cb' \/
  circlebuf_push_front u cb src = Some cb' ->
  size cb' = size cb + len src /\
  size cb' <= capacity cb' /\
  (size cb' <= capacity cb -> capacity cb' = capacity cb) /\
  (capacity cb < size cb' ->
   2 * capacity cb <= capacity cb' <= 2 * size cb').
Proof.
  intros Hwf Hn H. pose proof (len_nonneg src) as Hl.
  assert (Hs : 0 <= size cb <= capacity cb) by (unfold wf in Hwf; lia).
  assert (Hok : alloc_ok cb (size cb + len src)).
  { destruct (alloc_ok_cases cb (size cb + len src)) as [Hok | Hno];
      [exact Hok |].
    assert (Hnone : circlebuf_ensure_capacity u
                      (set_size cb (wrap (size cb + len src))) = None).
    { apply push_none; [exact Hwf | lia |]. unfold alloc_ok. lia. }
    destruct H as [E | E];
      [unfold circlebuf_push_back in E | unfold circlebuf_push_front in E];
      rewrite Hnone in E; discriminate. }
  assert (Hres : size cb' = size cb + len src /\
                 capacity cb' = grown_capacity cb (size cb + len src)).
  { destruct H as [E | E].
    - destruct (push_back_spec u cb src Hwf Hok) as (c & E1 & _ & _ & H1 & H2).
      assert (c = cb') by congruence. subst c. auto.
    - destruct (push_front_spec u cb src Hwf Hok) as (c & E1 & _ & _ & H1 & H2).
      assert (c = cb') by congruence. subst c. auto. }
  destruct Hres as [Hsz Hcap]. rewrite Hcap, Hsz. unfold grown_capacity.
  destruct (Z.leb_spec (size cb + len src) (capacity cb)); splits; lia.
Qed.

(** X15. [circlebuf_data] never points outside the block: on a well-formed
    buffer every pointer it returns is an offset below [capacity], the
    length of the block. *)
Theorem data_in_block cb idx off :
  wf cb -> 0 <= idx ->
  circlebuf_data cb idx = Some off ->
  idx < size cb /\ 0 <= off < capacity cb /\ capacity cb = len (data cb).
Proof.
  intros Hwf Hi E.
  assert (Hlt : idx < size cb).
  { unfold circlebuf_data in E.
    destruct (Z.leb_spec (size cb) idx); [discriminate | lia]. }
  rewrite (data_spec cb idx Hwf) in E by lia. injection E as <-.
  destruct (phys_mod cb idx Hwf ltac:(lia)) as [_ Hr].
  splits; try lia. unfold wf in Hwf. lia.
Qed.

(** ** Concrete runs *)

Lemma pop_keeps_block_witness :
  (0 <= 4 <= size cb_wrapped) /\
  exists cb' out,
    circlebuf_pop_front cb_wrapped true 4 = Some (cb', out) /\
    data cb' = data cb_wrapped /\ capacity cb' = 8 /\
    size cb' = 0 /\ start_pos cb' = 0 /\ end_pos cb' = 0.
Proof.
  assert (Hn : 0 <= 4 <= size cb_wrapped) by (cbn; lia).
  split; [exact Hn |].
  destruct (circlebuf_pop_front cb_wrapped true 4) as [[cb' out] |] eqn:E;
    [| discriminate E].
  exists cb', out.
  destruct (pop_keeps_block cb_wrapped true 4 cb' out wf_cb_wrapped Hn
              (or_introl E)) as (Hd & Hc & Hz).
  destruct (Hz eq_refl) as (Z1 & Z2 & Z3).
  split; [reflexivity |]. split; [exact Hd |]. split; [exact Hc |].
  split; [exact Z1 |]. split; [exact Z2 | exact Z3].
Defined.

Lemma data_after_pop_front_witness :
  exists cb' out,
    circlebuf_pop_front cb_wrapped true 1 = Some (cb', out) /\
    circlebuf_data cb' 2 = circlebuf_data cb_wrapped 3 /\
    circlebuf_data cb_wrapped 3 = Some 1.
Proof.
  destruct (circlebuf_pop_front cb_wrapped true 1) as [[cb' out] |] eqn:E;
    [| discriminate E].
  exists cb', out.
  destruct (data_after_pop_front cb_wrapped true 1 2 cb' out wf_cb_wrapped
              ltac:(lia) ltac:(lia) ltac:(cbn; lia) E) as (Hd & _ & _).
  split; [reflexivity |]. split; [exact Hd | reflexivity].
Defined.

Lemma push_back_in_place_witness :
  size cb_wrapped + len ["e"; "f"]%byte <= capacity cb_wrapped /\
  exists cb',
    circlebuf_push_back ff cb_wrapped ["e"; "f"]%byte = Some cb' /\
    capacity cb' = 8 /\ start_pos cb' = 6 /\
    circlebuf_data cb' 3 = circlebuf_data cb_wrapped 3.
Proof.
  assert (Hroom : size cb_wrapped + len ["e"; "f"]%byte
                  <= capacity cb_wrapped) by (cbn; lia).
  split; [exact Hroom |].
  destruct (circlebuf_push_back ff cb_wrapped ["e"; "f"]%byte)
    as [cb' |] eqn:E; [| discriminate E].
  exists cb'.
  destruct (push_back_in_place ff cb_wrapped ["e"; "f"]%byte cb'
              wf_cb_wrapped Hroom E) as (Hc & Hs & _ & Hd).
  split; [reflexivity |]. split; [exact Hc |]. split; [exact Hs |].
  exact (proj1 (Hd 3 ltac:(cbn; lia))).
Defined.

Lemma alloc_ok_cb_wrapped n : 0 <= n <= 1000 -> alloc_ok cb_wrapped n.
Proof. unfold alloc_ok, PTRDIFF_MAX. cbn. lia. Qed.

Lemma push_zero_correct_witness :
  exists cb',
    circlebuf_push_back_zero ff cb_wrapped 3 = Some cb' /\
    contents cb' = ["a"; "b"; "c"; "d"; "000"; "000"; "000"]%byte.
Proof.
  destruct (push_zero_correct ff cb_wrapped 3 wf_cb_wrapped ltac:(lia)
              (alloc_ok_cb_wrapped (size cb_wrapped + 3) ltac:(cbn; lia)))
    as [(cb' & E & _ & _ & Hc & _) _].
  exists cb'. split; [exact E | exact Hc].
Defined.

Lemma upsize_correct_witness :
  circlebuf_upsize ff cb_wrapped 2 = Some cb_wrapped /\
  exists cb',
    circlebuf_upsize ff cb_wrapped 10 = Some cb' /\ size cb' = 10 /\
    contents cb' =
    ["a"; "b"; "c"; "d"; "000"; "000"; "000"; "000"; "000"; "000"]%byte.
Proof.
  destruct (upsize_correct ff cb_wrapped 2 wf_cb_wrapped) as [H1 _].
  destruct (upsize_correct ff cb_wrapped 10 wf_cb_wrapped) as [_ H2].
  split; [exact (H1 ltac:(cbn; lia)) |].
  destruct (H2 ltac:(cbn; lia) (alloc_ok_cb_wrapped 10 ltac:(lia)))
    as (cb' & E & _ & _ & Hs & Hc).
  exists cb'. split; [exact E |]. split; [exact Hs | exact Hc].
Defined.

Lemma push_pop_same_end_witness :
  exists cb1 cb2,
    circlebuf_push_back ff cb_wrapped ["x"; "y"; "z"]%byte = Some cb1 /\
    circlebuf_pop_back cb1 true 3 = Some (cb2, ["x"; "y"; "z"]%byte) /\
    contents cb2 = ["a"; "b"; "c"; "d"]%byte.
Proof.
  destruct (push_pop_same_end ff cb_wrapped ["x"; "y"; "z"]%byte wf_cb_wrapped
              (alloc_ok_cb_wrapped
                 (size cb_wrapped + len ["x"; "y"; "z"]%byte)
                 ltac:(cbn; lia)))
    as [(cb1 & cb2 & E1 & E2 & Hc & _) _].
  exists cb1, cb2. split; [exact E1 |]. split; [exact E2 | exact Hc].
Defined.

Lemma pop_push_restores_witness :
  0 <= 3 <= size cb_wrapped /\
  exists cb1 out cb2,
    circlebuf_pop_front cb_wrapped true 3 = Some (cb1, out) /\
    circlebuf_push_front ff cb1 out = Some cb2 /\
    contents cb2 = ["a"; "b"; "c"; "d"]%byte /\ capacity cb2 = 8.
Proof.
  assert (Hn : 0 <= 3 <= size cb_wrapped) by (cbn; lia).
  split; [exact Hn |].
  destruct (pop_push_restores ff cb_wrapped 3 wf_cb_wrapped Hn)
    as [(cb1 & out & cb2 & E1 & E2 & Hc & Hcap) _].
  exists cb1, out, cb2.
  split; [exact E1 |]. split; [exact E2 |]. split; [exact Hc | exact Hcap].
Defined.

Lemma reserve_then_push_witness :
  size cb_wrapped + len ["e"; "f"; "g"; "h"; "i"; "j"]%byte <= 10 /\
  exists cb1 cb2,
    circlebuf_reserve ff cb_wrapped 10 = Some cb1 /\
    circlebuf_push_back ff cb1 ["e"; "f"; "g"; "h"; "i"; "j"]%byte = Some cb2 /\
    capacity cb1 = 10 /\ capacity cb2 = 10.
Proof.
  assert (Hfit : size cb_wrapped + len ["e"; "f"; "g"; "h"; "i"; "j"]%byte
                 <= 10) by (cbn; lia).
  split; [exact Hfit |].
  destruct (reserve_then_push ff cb_wrapped 10
              ["e"; "f"; "g"; "h"; "i"; "j"]%byte wf_cb_wrapped Hfit
              ltac:(unfold PTRDIFF_MAX; lia))
    as (cb1 & cb2 & E1 & E2 & _ & Hc1 & Hc2 & _).
  exists cb1, cb2. split; [exact E1 |]. split; [exact E2 |].
  split; [exact Hc1 |]. rewrite Hc2. exact Hc1.
Defined.

Lemma first_push_exact_witness :
  0 < len ["a"; "b"; "c"]%byte <= PTRDIFF_MAX /\
  exists cb',
    circlebuf_push_back ff (circlebuf_free cb_wrapped) ["a"; "b"; "c"]%byte
    = Some cb' /\
    capacity cb' = 3 /\ contents cb' = ["a"; "b"; "c"]%byte.
Proof.
  assert (Hn : 0 < len ["a"; "b"; "c"]%byte <= PTRDIFF_MAX)
    by (unfold PTRDIFF_MAX; cbn; lia).
  split; [exact Hn |].
  destruct (first_push_exact ff cb_wrapped ["a"; "b"; "c"]%byte Hn)
    as (cb' & E & _ & Hcap & _ & _ & Hc).
  exists cb'. split; [exact E |]. split; [exact Hcap | exact Hc].
Defined.

Lemma place_extends_witness :
  size cb_wrapped <= 6 /\
  exists cb',
    circlebuf_place ff cb_wrapped 6 ["x"]%byte = Some cb' /\
    contents cb' = ["a"; "b"; "c"; "d"; "000"; "000"; "x"]%byte.
Proof.
  assert (Hp : size cb_wrapped <= 6) by (cbn; lia).
  split; [exact Hp |].
  destruct (place_extends ff cb_wrapped 6 ["x"]%byte wf_cb_wrapped Hp
              (alloc_ok_cb_wrapped (6 + len ["x"]%byte) ltac:(cbn; lia)))
    as [(cb' & E & Hc) _].
  exists cb'. split; [exact E | exact Hc].
Defined.

Lemma peeks_partition_witness :
  0 <= 1 <= size cb_wrapped /\
  exists a b,
    circlebuf_peek_front cb_wrapped true 1 = Some a /\
    circlebuf_peek_back cb_wrapped true (size cb_wrapped - 1) = Some b /\
    a ++ b = ["a"; "b"; "c"; "d"]%byte.
Proof.
  assert (Hn : 0 <= 1 <= size cb_wrapped) by (cbn; lia).
  split; [exact Hn |].
  destruct (peeks_partition cb_wrapped 1 wf_cb_wrapped Hn)
    as [(a & b & E1 & E2 & _ & _ & Hab) _].
  exists a, b. split; [exact E1 |]. split; [exact E2 | exact Hab].
Defined.

Lemma run_ignores_heap_witness :
  exists cb1 cb2,
    run ff [PushBack ["e"; "f"; "g"; "h"; "i"]; PopFront true 6]%byte
      cb_wrapped
    = Some (cb1, [[]; ["a"; "b"; "c"; "d"; "e"; "f"]]%byte) /\
    run (fun _ => x00)
      [PushBack ["e"; "f"; "g"; "h"; "i"]; PopFront true 6]%byte cb_wrapped
    = Some (cb2, [[]; ["a"; "b"; "c"; "d"; "e"; "f"]]%byte) /\
    contents cb1 = contents cb2.
Proof.
  destruct (run_ignores_heap ff (fun _ => x00)
              [PushBack ["e"; "f"; "g"; "h"; "i"]; PopFront true 6]%byte
              cb_wrapped ["g"; "h"; "i"]%byte
              [[]; ["a"; "b"; "c"; "d"; "e"; "f"]]%byte wf_cb_wrapped
              ltac:(unfold PTRDIFF_MAX; cbn; lia) eq_refl)
    as (cb1 & cb2 & E1 & E2 & Hc & _).
  exists cb1, cb2. split; [exact E1 |]. split; [exact E2 | exact Hc].
Defined.

Lemma push_capacity_bound_witness :
  len ["e"; "f"; "g"; "h"; "i"]%byte <= PTRDIFF_MAX /\
  exists cb',
    circlebuf_push_front ff cb_wrapped ["e"; "f"; "g"; "h"; "i"]%byte
    = Some cb' /\
    size cb' = 9 /\ 16 <= capacity cb' <= 18.
Proof.
  assert (Hn : len ["e"; "f"; "g"; "h"; "i"]%byte <= PTRDIFF_MAX)
    by (unfold PTRDIFF_MAX; cbn; lia).
  split; [exact Hn |].
  destruct (circlebuf_push_front ff cb_wrapped ["e"; "f"; "g"; "h"; "i"]%byte)
    as [cb' |] eqn:E; [| discriminate E].
  exists cb'.
  destruct (push_capacity_bound ff cb_wrapped _ cb' wf_cb_wrapped Hn
              (or_intror E)) as (Hs & _ & _ & Hg).
  split; [reflexivity |]. split; [exact Hs |].
  rewrite Hs in Hg. exact (Hg ltac:(cbn; lia)).
Defined.

Lemma data_in_block_witness :
  0 <= 3 /\ circlebuf_data cb_wrapped 3 = Some 1 /\ 0 <= 1 < capacity cb_wrapped.
Proof.
  split; [lia |].
  assert (E : circlebuf_data cb_wrapped 3 = Some 1) by reflexivity.
  split; [exact E |].
  exact (proj1 (proj2 (data_in_block cb_wrapped 3 1 wf_cb_wrapped
                         ltac:(lia) E))).
Defined.

End CircleBufExtras.

(** * Further properties of the helpers of WAVSource *)

Module WAVSourceExtras.
Import WAVSource WAVSourceFacts.

(** ** get_audio_sync *)

(** The value of [get_audio_sync] in terms of the local [audio_ts]. *)
Lemma get_audio_sync_value w ts :
  0 <= ts <= SIZE_MAX ->
  get_audio_sync w ts =
  Z.max (- MAX_TS_DELTA) (Z.min (audio_end w - ts) MAX_TS_DELTA).
Proof.
  intros Hts. pose proof (audio_end_range w) as Ha.
  unfold get_audio_sync. rewrite MAX_TS_DELTA_value.
  set (a := audio_end w) in *. unfold SIZE_MAX in *.
  rewrite (wrap_small (Z.max a ts - Z.min a ts)) by (unfold SIZE_MAX; lia).
  assert (Hd : 0 <= Z.min (Z.max a ts - Z.min a ts) 16000000000 <= 16000000000)
    by lia.
  rewrite (to_int64_small (Z.min _ _)) by lia.
  destruct (Z.ltb_spec a ts); rewrite ?to_int64_small by lia; lia.
Qed.

(** X16. [get_audio_sync] never grows with the timestamp asked for: a later
    [ts] gives a delta that is smaller or equal, and every delta lies between
    [- MAX_TS_DELTA] and [MAX_TS_DELTA]; the delta is 0 exactly at the end of
    the available audio. *)
Theorem get_audio_sync_monotone w ts1 ts2 :
  0 <= ts1 -> ts1 <= ts2 -> ts2 <= SIZE_MAX ->
  get_audio_sync w ts2 <= get_audio_sync w ts1 /\
  - MAX_TS_DELTA <= get_audio_sync w ts2 <= MAX_TS_DELTA /\
  (get_audio_sync w ts1 = 0 <-> audio_end w = ts1).
Proof.
  intros H1 H12 H2.
  rewrite !get_audio_sync_value by lia. rewrite MAX_TS_DELTA_value. lia.
Qed.

(** X17. The sum [m_audio_ts + m_ts_offset] is taken in [uint64_t]: when
    the offset is more negative than the audio timestamp is large, the sum
    wraps to a value near [2^64], and for every timestamp up to [2^62] the
    delta reported is the full [+ MAX_TS_DELTA] (audio far ahead), not a
    negative one. *)
Theorem get_audio_sync_wraps w ts :
  0 <= m_audio_ts w -> - 2 ^ 63 <= m_ts_offset w ->
  m_audio_ts w + m_ts_offset w < 0 ->
  0 <= ts <= 2 ^ 62 ->
  audio_end w = 2 ^ 64 + (m_audio_ts w + m_ts_offset w) /\
  get_audio_sync w ts = MAX_TS_DELTA.
Proof.
  intros Ha Ho Hneg Hts.
  assert (E : audio_end w = 2 ^ 64 + (m_audio_ts w + m_ts_offset w)).
  { unfold audio_end, wrap, SIZE_MOD.
    rewrite Z.add_mod_idemp_r by lia.
    symmetry. apply (Z.mod_unique _ _ (-1)); lia. }
  split; [exact E |].
  rewrite get_audio_sync_value by (unfold SIZE_MAX; lia).
  rewrite E, MAX_TS_DELTA_value. lia.
Qed.

(** ** dbfs *)

(** What is not [> 0] is [<= 0] or not a number. *)
Lemma not_positive_cases mag :
  flt zero mag = false <-> fle mag zero = true \/ is_nan mag = true.
Proof.
  destruct mag as [[] | [] | | [] m e]; cbn; split; intros H; auto;
    try discriminate; destruct H; discriminate.
Qed.

(** X18. [dbfs] applies [log10] to strictly positive input only: every
    other input - a zero of either sign, a negative number, negative
    infinity or a NaN - gives [DB_MIN], whatever [log10] would return
    there. *)
Theorem dbfs_floor log10f1 log10f2 DB_MIN mag :
  fle mag zero = true \/ is_nan mag = true ->
  dbfs log10f1 DB_MIN mag = DB_MIN /\
  dbfs log10f1 DB_MIN mag = dbfs log10f2 DB_MIN mag.
Proof.
  intros H. apply not_positive_cases in H. unfold dbfs. rewrite H. auto.
Qed.

(** ** get_gravity *)

Lemma not_fle_not_negative g : fle g zero = false -> flt g zero = false.
Proof. destruct g as [[] | [] | | [] m e]; cbn; auto; discriminate. Qed.

(** X19. Outside mode [TVEXPONENTIAL], [get_gravity] never returns a
    negative coefficient and does not look at the elapsed seconds: the value
    is [+0] or an [m_gravity] that is not [<= 0], the same for every
    [seconds], and no [exp] or [lerp] is evaluated. *)
Theorem get_gravity_fixed expf1 expf2 lerp1 lerp2 w s1 s2 :
  m_tsmoothing w <> TVEXPONENTIAL ->
  flt (get_gravity expf1 lerp1 w s1) zero = false /\
  (get_gravity expf1 lerp1 w s1 = zero \/
   get_gravity expf1 lerp1 w s1 = m_gravity w) /\
  get_gravity expf1 lerp1 w s1 = get_gravity expf2 lerp2 w s2.
Proof.
  intros Hm. unfold get_gravity, get_gravity_eval.
  destruct (m_tsmoothing w); try contradiction; cbn [is_none orb fst].
  - auto.
  - destruct (fle (m_gravity w) zero) eqn:Hle; cbn [fst]; splits; auto.
    now apply not_fle_not_negative.
Qed.

(** The sign a rounded result carries is the one asked for. *)
Lemma round_sign_negative m e l :
  flt zero (binary_round_aux prec emax true m e l) = false.
Proof.
  unfold binary_round_aux.
  destruct (shr_fexp prec emax m e l) as [mrs' e'].
  destruct (shr_fexp prec emax _ e' loc_Exact) as [mrs'' e''].
  destruct (shr_m mrs''); [reflexivity | | reflexivity].
  destruct (e'' <=? emax - prec); reflexivity.
Qed.

(** A non-negative number, negated and divided by a positive one, is not
    positive. *)
Lemma neg_div_not_positive s d :
  fle zero s = true -> flt zero d = true ->
  flt zero (fdiv (fneg s) d) = false.
Proof.
  intros Hs Hd.
  destruct s as [[] | [] | | [] ms es]; try discriminate Hs;
    destruct d as [[] | [] | | [] md ed]; try discriminate Hd;
    try reflexivity.
  unfold fdiv, fneg. cbn [SFopp SFdiv negb xorb].
  destruct (SFdiv_core_binary prec emax (Z.pos ms) es (Z.pos md) ed)
    as [[mz ez] lz].
  apply round_sign_negative.
Qed.

(** X20. In mode [TVEXPONENTIAL] with [m_gravity] not [<= 0], [get_gravity]
    is [exp] of the quotient [- seconds / lerp (0, 5 k, m_gravity)]; when the
    elapsed seconds are not negative and the denominator is positive, that
    quotient is never positive, so the coefficient cannot exceed what [exp]
    gives at 0. *)
Theorem get_gravity_exponent expf lerp w seconds :
  m_tsmoothing w = TVEXPONENTIAL -> fle (m_gravity w) zero = false ->
  fle zero seconds = true -> flt zero (lerp lo hi (m_gravity w)) = true ->
  exists x,
    get_gravity expf lerp w seconds = expf x /\
    x = fdiv (fneg seconds) (lerp lo hi (m_gravity w)) /\
    flt zero x = false.
Proof.
  intros Hm Hg Hs Hd.
  exists (fdiv (fneg seconds) (lerp lo hi (m_gravity w))).
  splits; [| reflexivity | now apply neg_div_not_positive].
  unfold get_gravity, get_gravity_eval. now rewrite Hm, Hg.
Qed.

(** ** Concrete values *)

Lemma get_audio_sync_monotone_witness :
  0 <= 1000 /\ 1000 <= 2000 /\ 2000 <= SIZE_MAX /\
  get_audio_sync (mkws 1500 0 NONE zero) 2000
  <= get_audio_sync (mkws 1500 0 NONE zero) 1000.
Proof.
  assert (H3 : 2000 <= SIZE_MAX) by (unfold SIZE_MAX; lia).
  split; [lia |]. split; [lia |]. split; [exact H3 |].
  exact (proj1 (get_audio_sync_monotone (mkws 1500 0 NONE zero) 1000 2000
                  ltac:(lia) ltac:(lia) H3)).
Defined.

Lemma get_audio_sync_wraps_witness :
  m_audio_ts (mkws 5 (-10) NONE zero) + m_ts_offset (mkws 5 (-10) NONE zero)
  < 0 /\
  get_audio_sync (mkws 5 (-10) NONE zero) 1000000 = MAX_TS_DELTA.
Proof.
  split; [cbn; lia |].
  exact (proj2 (get_audio_sync_wraps (mkws 5 (-10) NONE zero) 1000000
                  ltac:(cbn; lia) ltac:(cbn; lia) ltac:(cbn; lia)
                  ltac:(lia))).
Defined.

Lemma dbfs_floor_witness :
  is_nan S754_nan = true /\ dbfs f_id f_floor S754_nan = f_floor.
Proof.
  split; [reflexivity |].
  exact (proj1 (dbfs_floor f_id f_id f_floor S754_nan (or_intror eq_refl))).
Defined.

Lemma get_gravity_fixed_witness :
  m_tsmoothing (mkws 0 0 EXPONENTIAL f_minus_one) <> TVEXPONENTIAL /\
  flt (get_gravity f_id lerp_linear (mkws 0 0 EXPONENTIAL f_minus_one) f_one)
    zero = false.
Proof.
  assert (H : m_tsmoothing (mkws 0 0 EXPONENTIAL f_minus_one)
              <> TVEXPONENTIAL) by discriminate.
  split; [exact H |].
  exact (proj1 (get_gravity_fixed f_id f_id lerp_linear lerp_linear
                  (mkws 0 0 EXPONENTIAL f_minus_one) f_one f_one H)).
Defined.

Lemma get_gravity_exponent_witness :
  fle zero f_one = true /\
  flt zero (lerp_linear lo hi (m_gravity (mkws 0 0 TVEXPONENTIAL f_one)))
  = true /\
  exists x,
    get_gravity f_id lerp_linear (mkws 0 0 TVEXPONENTIAL f_one) f_one = x /\
    flt zero x = false.
Proof.
  split; [reflexivity |]. split; [reflexivity |].
  destruct (get_gravity_exponent f_id lerp_linear
              (mkws 0 0 TVEXPONENTIAL f_one) f_one
              eq_refl eq_refl eq_refl eq_refl) as (x & E & _ & Hx).
  exists x. split; [exact E | exact Hx].
Defined.

End WAVSourceExtras.
